(** * crimsoncore.lambda_config: the layered configuration resolver

    A shallow embedding of [lib/crimsoncore/lambda_config.py] (class
    [LambdaConfig]) and the properties of its resolution chain, its
    validation and coercion steps, its memoized getters and its three
    identifier builders.

    Conventions of the embedding.
    - A Python [str] is a [string] holding its UTF-8 bytes.  [lower] is
      [str.lower] on the ASCII letters and leaves every other byte as it is;
      the pattern of the region reads code points back from the bytes, and
      its class of digits is the decimal digits of Unicode 14.0, the table
      of Python 3.11.
    - A mapping ([dict], [os.environ]) from setting names to [str] values is a
      [gmap string string]; the per-caller overrides are a map of such maps.
    - An attribute that is [None] until first computed is an [option].
    - A method that may raise and that may assign attributes of [self] is a
      function from the instance to an outcome and the instance afterwards;
      assignments made before a [raise] stay in place, as in Python. *)

From Stdlib Require Import String Ascii List ZArith Bool Lia.
From stdpp Require Import base option strings gmap.

Local Open Scope string_scope.

(** ** Python strings *)

Module Str.

(** The one-character string holding the double quote. *)
Definition dquote : string := String (ascii_of_nat 34) EmptyString.

(** The one-character string holding a line feed. *)
Definition newline : string := String (ascii_of_nat 10) EmptyString.

Definition lower_char (c : ascii) : ascii :=
  let n := nat_of_ascii c in
  if (65 <=? n)%nat && (n <=? 90)%nat then ascii_of_nat (n + 32) else c.

(** [value.lower()] *)
Fixpoint lower (s : string) : string :=
  match s with
  | EmptyString => EmptyString
  | String c r => String (lower_char c) (lower r)
  end.

(** [len(value)] *)
Definition len (s : string) : nat := String.length s.

(** [sep.join(chunks)] *)
Fixpoint join (sep : string) (chunks : list string) : string :=
  match chunks with
  | [] => EmptyString
  | [x] => x
  | x :: rest => x ++ sep ++ join sep rest
  end.

(** [repr(s)] for a string free of quotes, backslashes and control
    characters, which is what the validation tuples hold. *)
Definition repr (s : string) : string := "'" ++ s ++ "'".

(** [str(t)[1:-1]] for a tuple [t] of strings: the tuple's display
    without its parentheses.  A one-element tuple displays as ['x',]. *)
Definition tuple_inner (t : list string) : string :=
  match t with
  | [x] => repr x ++ ","
  | _ => join ", " (map repr t)
  end.

(** [s.startswith(p)], giving the rest of [s] after [p]. *)
Fixpoint strip_prefix (p s : string) : option string :=
  match p, s with
  | EmptyString, _ => Some s
  | String a p', String b s' =>
      if Ascii.eqb a b then strip_prefix p' s' else None
  | String _ _, EmptyString => None
  end.

(** An ASCII digit, 0 to 9. *)
Definition is_digit (c : ascii) : bool :=
  let n := nat_of_ascii c in (48 <=? n)%nat && (n <=? 57)%nat.

(** The code point of the digit zero of every script that has decimal
    digits (Unicode 14.0, the table of Python 3.11); the decimal digits of a
    script are the ten code points from its zero. *)
Definition decimal_zeros : list N :=
  [ 0x30; 0x660; 0x6f0; 0x7c0; 0x966; 0x9e6; 0xa66; 0xae6; 0xb66; 0xbe6; 0xc66;
    0xce6; 0xd66; 0xde6; 0xe50; 0xed0; 0xf20; 0x1040; 0x1090; 0x17e0; 0x1810;
    0x1946; 0x19d0; 0x1a80; 0x1a90; 0x1b50; 0x1bb0; 0x1c40; 0x1c50; 0xa620;
    0xa8d0; 0xa900; 0xa9d0; 0xa9f0; 0xaa50; 0xabf0; 0xff10; 0x104a0; 0x10d30;
    0x11066; 0x110f0; 0x11136; 0x111d0; 0x112f0; 0x11450; 0x114d0; 0x11650;
    0x116c0; 0x11730; 0x118e0; 0x11950; 0x11c50; 0x11d50; 0x11da0; 0x16a60;
    0x16ac0; 0x16b50; 0x1d7ce; 0x1d7d8; 0x1d7e2; 0x1d7ec; 0x1d7f6; 0x1e140;
    0x1e2f0; 0x1e950; 0x1fbf0 ]%N.

(** [ch.isdecimal()] of a code point: the class [\d] of a [str] pattern. *)
Definition is_decimal (cp : N) : bool :=
  existsb (fun zero => (zero <=? cp)%N && (cp <? zero + 10)%N) decimal_zeros.

(** The code points of a text from its UTF-8 bytes, the way text outside
    ASCII is held here: [pending] bytes of the character being read are still
    to come, [acc] holds its bits so far, and [least] is the least code point
    that its length may encode.  [None] for bytes that are no UTF-8. *)
Fixpoint decode (pending : nat) (acc least : N) (s : string) : option (list N) :=
  match s with
  | EmptyString =>
      match pending with
      | O => Some []
      | S _ => None
      end
  | String c r =>
      let b := N_of_ascii c in
      match pending with
      | O =>
          if (b <? 0x80)%N then option_map (cons b) (decode 0 0 0 r)
          else if (0xc2 <=? b)%N && (b <=? 0xdf)%N then decode 1 (b - 0xc0) 0x80 r
          else if (0xe0 <=? b)%N && (b <=? 0xef)%N then decode 2 (b - 0xe0) 0x800 r
          else if (0xf0 <=? b)%N && (b <=? 0xf4)%N then decode 3 (b - 0xf0) 0x10000 r
          else None
      | S n =>
          if (0x80 <=? b)%N && (b <=? 0xbf)%N then
            let acc := (acc * 64 + (b - 0x80))%N in
            match n with
            | O =>
                if (least <=? acc)%N && (acc <=? 0x10ffff)%N
                   && negb ((0xd800 <=? acc)%N && (acc <=? 0xdfff)%N)
                then option_map (cons acc) (decode 0 0 0 r)
                else None
            | S _ => decode n acc least r
            end
          else None
      end
  end.

Definition code_points (s : string) : option (list N) := decode 0 0 0 s.

(** [[\d]+$] over the code points of the text: a greedy run of one or more
    decimal digits followed by the end of the text, where (outside MULTILINE
    mode) [$] stands at the very end and also just before a line feed that
    ends the text. *)
Fixpoint digits_to_end (seen : bool) (cps : list N) : bool :=
  match cps with
  | [] => seen
  | cp :: rest =>
      if is_decimal cp then digits_to_end true rest
      else seen && (cp =? 10)%N
           && match rest with [] => true | _ => false end
  end.

End Str.

(** ** Exceptions

    Every failure of the module is a [ValueError] carrying a message; the
    three kinds of the error taxonomy are the three messages. *)

Inductive exn : Type :=
| ValueError (msg : string).

(** [ValueError(f'Configuration value for "{name}" was not specified')] *)
Definition MissingConfiguration (name : string) : exn :=
  ValueError ("Configuration value for " ++ Str.dquote ++ name ++ Str.dquote
              ++ " was not specified").

(** [ValueError(f'Unknown {name} value specified; expected values [{str(validations)[1:-1]}]')] *)
Definition InvalidConfigurationValue (name : string) (validations : list string) : exn :=
  ValueError ("Unknown " ++ name ++ " value specified; expected values ["
              ++ Str.tuple_inner validations ++ "]").

(** [ValueError('log_kms_key_id cannot be used when log_archive_mode is not "s3"')] *)
Definition InvalidState : exn :=
  ValueError ("log_kms_key_id cannot be used when log_archive_mode is not "
              ++ Str.dquote ++ "s3" ++ Str.dquote).

Inductive result (A : Type) : Type :=
| Ok (a : A)
| Raise (e : exn).
Arguments Ok {A} a.
Arguments Raise {A} e.

(** ** The instance *)

Record LambdaConfig : Type := mkLambdaConfig {
  _script_name : string;
  _overrides : gmap string string;
  _lambda_overrides : gmap string (gmap string string);
  _env : gmap string string;
  application_name : option string;
  debug_mode : option bool;
  log_level : option Z;
  log_path : option string;
  safe_mode : option bool;
  fips_mode : option bool;
  log_archive_mode : option string;
  aws_region : option string;
  log_bucket : option string;
  log_kms_key_id : option string;
  global_prefix : option string;
  environment : option string;
  stack_name : option string;
  notification_arn : option string
}.

(** [self._defaults]: assigned once by the constructor, never changed. *)
Definition _defaults : gmap string string :=
  list_to_map [
    ("APPLICATION_NAME", EmptyString);
    ("DEBUG_MODE", "off");
    ("ENVIRONMENT", EmptyString);
    ("GLOBAL_PREFIX", EmptyString);
    ("LOG_PATH", "../logs/");
    ("LOG_ARCHIVE_MODE", "stdout");
    ("SAFE_MODE", "off");
    ("STACK_NAME", EmptyString)
  ].

Definition on_off : list string := ["on"; "off"; "true"; "false"; "yes"; "no"].

(** [self._validations]: assigned once by the constructor, never changed. *)
Definition _validations : gmap string (list string) :=
  list_to_map [
    ("DEBUG_MODE", on_off);
    ("ENABLE_NOTIFICATIONS", on_off);
    ("FIPS_MODE", on_off);
    ("LOG_ARCHIVE_MODE", ["s3"; "stdout"]);
    ("SAFE_MODE", on_off)
  ].

(** [LambdaConfig(name, env, overrides=None, lambda_overrides=None)] *)
Definition __init__ (name : string) (env : gmap string string)
    (overrides : option (gmap string string))
    (lambda_overrides : option (gmap string (gmap string string))) : LambdaConfig :=
  {| _script_name := name;
     _overrides := match overrides with Some o => o | None => ∅ end;
     _lambda_overrides := match lambda_overrides with Some o => o | None => ∅ end;
     _env := env;
     application_name := None;
     debug_mode := None;
     log_level := None;
     log_path := None;
     safe_mode := None;
     fips_mode := None;
     log_archive_mode := None;
     aws_region := None;
     log_bucket := None;
     log_kms_key_id := None;
     global_prefix := None;
     environment := None;
     stack_name := None;
     notification_arn := None |}.

(** ** Resolution, validation, coercion *)

(** [_get_val(self, name, default_override=None)] *)
Definition _get_val (self : LambdaConfig) (name : string)
    (default_override : option string) : result string :=
  match
    match _lambda_overrides self !! _script_name self with
    | Some overrides => overrides !! name
    | None => None
    end
  with
  | Some v => Ok v
  | None =>
      match _overrides self !! name with
      | Some v => Ok v
      | None =>
          match _env self !! name with
          | Some v => Ok v
          | None =>
              match _defaults !! name with
              | Some v => Ok v
              | None =>
                  match default_override with
                  | Some v => Ok v
                  | None => Raise (MissingConfiguration name)
                  end
              end
          end
      end
  end.

(** [_validate_val(self, name, value)] *)
Definition _validate_val (self : LambdaConfig) (name value : string) : result unit :=
  match _validations !! name with
  | Some validations =>
      if bool_decide (value ∈ validations) then Ok tt
      else Raise (InvalidConfigurationValue name validations)
  | None => Ok tt
  end.

(** What [val] returns: a [bool] under [bool_coerce], the string otherwise. *)
Definition val_type (bool_coerce : bool) : Type :=
  if bool_coerce then bool else string.

(** [val(self, name, to_lower=False, bool_coerce=False, default_override=None)] *)
Definition val (self : LambdaConfig) (name : string) (to_lower bool_coerce : bool)
    (default_override : option string) : result (val_type bool_coerce) :=
  match _get_val self name default_override with
  | Raise e => Raise e
  | Ok value =>
      let value := if to_lower || bool_coerce then Str.lower value else value in
      match
        match _validations !! name with
        | Some _ => _validate_val self name value
        | None => Ok tt
        end
      with
      | Raise e => Raise e
      | Ok _ =>
          Ok (match bool_coerce return val_type bool_coerce with
              | true => bool_decide (value ∈ ["on"; "true"; "yes"])
              | false => value
              end)
      end
  end.

(** ** Assignments to the attributes of [self]

    [set_x v self] is the instance after [self.x = v]. *)

Definition set_application_name (v : string) (self : LambdaConfig) : LambdaConfig :=
  {| _script_name := _script_name self; _overrides := _overrides self;
     _lambda_overrides := _lambda_overrides self; _env := _env self;
     application_name := Some v; debug_mode := debug_mode self;
     log_level := log_level self; log_path := log_path self;
     safe_mode := safe_mode self; fips_mode := fips_mode self;
     log_archive_mode := log_archive_mode self; aws_region := aws_region self;
     log_bucket := log_bucket self; log_kms_key_id := log_kms_key_id self;
     global_prefix := global_prefix self; environment := environment self;
     stack_name := stack_name self; notification_arn := notification_arn self |}.

Definition set_debug_mode (v : bool) (self : LambdaConfig) : LambdaConfig :=
  {| _script_name := _script_name self; _overrides := _overrides self;
     _lambda_overrides := _lambda_overrides self; _env := _env self;
     application_name := application_name self; debug_mode := Some v;
     log_level := log_level self; log_path := log_path self;
     safe_mode := safe_mode self; fips_mode := fips_mode self;
     log_archive_mode := log_archive_mode self; aws_region := aws_region self;
     log_bucket := log_bucket self; log_kms_key_id := log_kms_key_id self;
     global_prefix := global_prefix self; environment := environment self;
     stack_name := stack_name self; notification_arn := notification_arn self |}.

Definition set_log_level (v : Z) (self : LambdaConfig) : LambdaConfig :=
  {| _script_name := _script_name self; _overrides := _overrides self;
     _lambda_overrides := _lambda_overrides self; _env := _env self;
     application_name := application_name self; debug_mode := debug_mode self;
     log_level := Some v; log_path := log_path self; safe_mode := safe_mode self;
     fips_mode := fips_mode self; log_archive_mode := log_archive_mode self;
     aws_region := aws_region self; log_bucket := log_bucket self;
     log_kms_key_id := log_kms_key_id self; global_prefix := global_prefix self;
     environment := environment self; stack_name := stack_name self;
     notification_arn := notification_arn self |}.

Definition set_log_path (v : string) (self : LambdaConfig) : LambdaConfig :=
  {| _script_name := _script_name self; _overrides := _overrides self;
     _lambda_overrides := _lambda_overrides self; _env := _env self;
     application_name := application_name self; debug_mode := debug_mode self;
     log_level := log_level self; log_path := Some v; safe_mode := safe_mode self;
     fips_mode := fips_mode self; log_archive_mode := log_archive_mode self;
     aws_region := aws_region self; log_bucket := log_bucket self;
     log_kms_key_id := log_kms_key_id self; global_prefix := global_prefix self;
     environment := environment self; stack_name := stack_name self;
     notification_arn := notification_arn self |}.

Definition set_safe_mode (v : bool) (self : LambdaConfig) : LambdaConfig :=
  {| _script_name := _script_name self; _overrides := _overrides self;
     _lambda_overrides := _lambda_overrides self; _env := _env self;
     application_name := application_name self; debug_mode := debug_mode self;
     log_level := log_level self; log_path := log_path self; safe_mode := Some v;
     fips_mode := fips_mode self; log_archive_mode := log_archive_mode self;
     aws_region := aws_region self; log_bucket := log_bucket self;
     log_kms_key_id := log_kms_key_id self; global_prefix := global_prefix self;
     environment := environment self; stack_name := stack_name self;
     notification_arn := notification_arn self |}.

Definition set_fips_mode (v : bool) (self : LambdaConfig) : LambdaConfig :=
  {| _script_name := _script_name self; _overrides := _overrides self;
     _lambda_overrides := _lambda_overrides self; _env := _env self;
     application_name := application_name self; debug_mode := debug_mode self;
     log_level := log_level self; log_path := log_path self;
     safe_mode := safe_mode self; fips_mode := Some v;
     log_archive_mode := log_archive_mode self; aws_region := aws_region self;
     log_bucket := log_bucket self; log_kms_key_id := log_kms_key_id self;
     global_prefix := global_prefix self; environment := environment self;
     stack_name := stack_name self; notification_arn := notification_arn self |}.

Definition set_log_archive_mode (v : string) (self : LambdaConfig) : LambdaConfig :=
  {| _script_name := _script_name self; _overrides := _overrides self;
     _lambda_overrides := _lambda_overrides self; _env := _env self;
     application_name := application_name self; debug_mode := debug_mode self;
     log_level := log_level self; log_path := log_path self;
     safe_mode := safe_mode self; fips_mode := fips_mode self;
     log_archive_mode := Some v; aws_region := aws_region self;
     log_bucket := log_bucket self; log_kms_key_id := log_kms_key_id self;
     global_prefix := global_prefix self; environment := environment self;
     stack_name := stack_name self; notification_arn := notification_arn self |}.

Definition set_aws_region (v : string) (self : LambdaConfig) : LambdaConfig :=
  {| _script_name := _script_name self; _overrides := _overrides self;
     _lambda_overrides := _lambda_overrides self; _env := _env self;
     application_name := application_name self; debug_mode := debug_mode self;
     log_level := log_level self; log_path := log_path self;
     safe_mode := safe_mode self; fips_mode := fips_mode self;
     log_archive_mode := log_archive_mode self; aws_region := Some v;
     log_bucket := log_bucket self; log_kms_key_id := log_kms_key_id self;
     global_prefix := global_prefix self; environment := environment self;
     stack_name := stack_name self; notification_arn := notification_arn self |}.

Definition set_log_bucket (v : string) (self : LambdaConfig) : LambdaConfig :=
  {| _script_name := _script_name self; _overrides := _overrides self;
     _lambda_overrides := _lambda_overrides self; _env := _env self;
     application_name := application_name self; debug_mode := debug_mode self;
     log_level := log_level self; log_path := log_path self;
     safe_mode := safe_mode self; fips_mode := fips_mode self;
     log_archive_mode := log_archive_mode self; aws_region := aws_region self;
     log_bucket := Some v; log_kms_key_id := log_kms_key_id self;
     global_prefix := global_prefix self; environment := environment self;
     stack_name := stack_name self; notification_arn := notification_arn self |}.

Definition set_log_kms_key_id (v : string) (self : LambdaConfig) : LambdaConfig :=
  {| _script_name := _script_name self; _overrides := _overrides self;
     _lambda_overrides := _lambda_overrides self; _env := _env self;
     application_name := application_name self; debug_mode := debug_mode self;
     log_level := log_level self; log_path := log_path self;
     safe_mode := safe_mode self; fips_mode := fips_mode self;
     log_archive_mode := log_archive_mode self; aws_region := aws_region self;
     log_bucket := log_bucket self; log_kms_key_id := Some v;
     global_prefix := global_prefix self; environment := environment self;
     stack_name := stack_name self; notification_arn := notification_arn self |}.

Definition set_global_prefix (v : string) (self : LambdaConfig) : LambdaConfig :=
  {| _script_name := _script_name self; _overrides := _overrides self;
     _lambda_overrides := _lambda_overrides self; _env := _env self;
     application_name := application_name self; debug_mode := debug_mode self;
     log_level := log_level self; log_path := log_path self;
     safe_mode := safe_mode self; fips_mode := fips_mode self;
     log_archive_mode := log_archive_mode self; aws_region := aws_region self;
     log_bucket := log_bucket self; log_kms_key_id := log_kms_key_id self;
     global_prefix := Some v; environment := environment self;
     stack_name := stack_name self; notification_arn := notification_arn self |}.

Definition set_environment (v : string) (self : LambdaConfig) : LambdaConfig :=
  {| _script_name := _script_name self; _overrides := _overrides self;
     _lambda_overrides := _lambda_overrides self; _env := _env self;
     application_name := application_name self; debug_mode := debug_mode self;
     log_level := log_level self; log_path := log_path self;
     safe_mode := safe_mode self; fips_mode := fips_mode self;
     log_archive_mode := log_archive_mode self; aws_region := aws_region self;
     log_bucket := log_bucket self; log_kms_key_id := log_kms_key_id self;
     global_prefix := global_prefix self; environment := Some v;
     stack_name := stack_name self; notification_arn := notification_arn self |}.

Definition set_stack_name (v : string) (self : LambdaConfig) : LambdaConfig :=
  {| _script_name := _script_name self; _overrides := _overrides self;
     _lambda_overrides := _lambda_overrides self; _env := _env self;
     application_name := application_name self; debug_mode := debug_mode self;
     log_level := log_level self; log_path := log_path self;
     safe_mode := safe_mode self; fips_mode := fips_mode self;
     log_archive_mode := log_archive_mode self; aws_region := aws_region self;
     log_bucket := log_bucket self; log_kms_key_id := log_kms_key_id self;
     global_prefix := global_prefix self; environment := environment self;
     stack_name := Some v; notification_arn := notification_arn self |}.

Definition set_notification_arn (v : string) (self : LambdaConfig) : LambdaConfig :=
  {| _script_name := _script_name self; _overrides := _overrides self;
     _lambda_overrides := _lambda_overrides self; _env := _env self;
     application_name := application_name self; debug_mode := debug_mode self;
     log_level := log_level self; log_path := log_path self;
     safe_mode := safe_mode self; fips_mode := fips_mode self;
     log_archive_mode := log_archive_mode self; aws_region := aws_region self;
     log_bucket := log_bucket self; log_kms_key_id := log_kms_key_id self;
     global_prefix := global_prefix self; environment := environment self;
     stack_name := stack_name self; notification_arn := Some v |}.

(** The instance after the caller has changed the mappings it handed to
    the constructor (the instance holds them by reference) or has assigned
    new ones; the computed attributes are untouched. *)
Definition with_sources (env : gmap string string) (overrides : gmap string string)
    (lambda_overrides : gmap string (gmap string string)) (self : LambdaConfig) : LambdaConfig :=
  {| _script_name := _script_name self; _overrides := overrides;
     _lambda_overrides := lambda_overrides; _env := env;
     application_name := application_name self; debug_mode := debug_mode self;
     log_level := log_level self; log_path := log_path self;
     safe_mode := safe_mode self; fips_mode := fips_mode self;
     log_archive_mode := log_archive_mode self; aws_region := aws_region self;
     log_bucket := log_bucket self; log_kms_key_id := log_kms_key_id self;
     global_prefix := global_prefix self; environment := environment self;
     stack_name := stack_name self; notification_arn := notification_arn self |}.

(** ** Methods that assign attributes *)

(** A method body: an outcome and the instance afterwards. *)
Definition M (A : Type) : Type := LambdaConfig → result A * LambdaConfig.

Definition ret {A} (a : A) : M A := fun self => (Ok a, self).

Definition raise {A} (e : exn) : M A := fun self => (Raise e, self).

Definition bind {A B} (m : M A) (k : A → M B) : M B := fun self =>
  match m self with
  | (Ok a, self') => k a self'
  | (Raise e, self') => (Raise e, self')
  end.

(** A call that reads [self] and assigns nothing. *)
Definition pure_call {A} (f : LambdaConfig → result A) : M A :=
  fun self => (f self, self).

Notation "'let*' x ':=' m 'in' k" := (bind m (fun x => k))
  (at level 10, x name, m at level 100, k at level 200).

(** The getters' idiom:
    [if self.x is None: self.x = <compute>] then [return self.x]. *)
Definition memo {A} (slot : LambdaConfig → option A)
    (assign : A → LambdaConfig → LambdaConfig) (compute : M A) : M A := fun self =>
  match slot self with
  | Some v => (Ok v, self)
  | None =>
      match compute self with
      | (Ok v, self') => (Ok v, assign v self')
      | (Raise e, self') => (Raise e, self')
      end
  end.

(** [re.search('^us-gov-(?:west|east)-[\\d]+$', aws_region)], as a truth
    value.  The literal part of the pattern is ASCII and is matched on the
    bytes; what follows it is read as code points.  Bytes that are no UTF-8
    give no match: [os.environ] hands such bytes over as lone surrogates,
    which are no digits. *)
Definition in_gov_cloud (aws_region : string) : bool :=
  match Str.strip_prefix "us-gov-" aws_region with
  | None => false
  | Some rest =>
      match
        match Str.strip_prefix "west" rest with
        | Some r => Some r
        | None => Str.strip_prefix "east" rest
        end
      with
      | None => false
      | Some rest' =>
          match Str.strip_prefix "-" rest' with
          | None => false
          | Some digits =>
              match Str.code_points digits with
              | Some cps => Str.digits_to_end false cps
              | None => false
              end
          end
      end
  end.

(** [logging.DEBUG] and [logging.INFO] *)
Definition logging_DEBUG : Z := 10.
Definition logging_INFO : Z := 20.

Definition get_application_name : M string :=
  memo application_name set_application_name
    (pure_call (fun self => val self "APPLICATION_NAME" true false None)).

Definition get_debug_mode : M bool :=
  memo debug_mode set_debug_mode
    (pure_call (fun self => val self "DEBUG_MODE" false true None)).

Definition get_log_level : M Z :=
  memo log_level set_log_level
    (let* debug := get_debug_mode in
     ret (if debug then logging_DEBUG else logging_INFO)).

Definition get_log_path : M string :=
  memo log_path set_log_path
    (pure_call (fun self => val self "LOG_PATH" false false None)).

Definition get_safe_mode : M bool :=
  memo safe_mode set_safe_mode
    (pure_call (fun self => val self "SAFE_MODE" false true None)).

Definition get_aws_region : M string :=
  memo aws_region set_aws_region
    (pure_call (fun self => val self "AWS_REGION" true false None)).

Definition get_fips_mode : M bool :=
  memo fips_mode set_fips_mode
    (let* aws_region := get_aws_region in
     let in_gov_cloud := in_gov_cloud aws_region in
     pure_call (fun self =>
       val self "FIPS_MODE" false true (Some (if in_gov_cloud then "on" else "off")))).

Definition get_global_prefix : M string :=
  memo global_prefix set_global_prefix
    (pure_call (fun self => val self "GLOBAL_PREFIX" true false None)).

Definition get_environment : M string :=
  memo environment set_environment
    (pure_call (fun self => val self "ENVIRONMENT" true false None)).

Definition get_stack_name : M string :=
  memo stack_name set_stack_name
    (pure_call (fun self => val self "STACK_NAME" true false None)).

Definition get_log_archive_mode : M string :=
  memo log_archive_mode set_log_archive_mode
    (pure_call (fun self => val self "LOG_ARCHIVE_MODE" true false None)).

Definition get_log_kms_key_id : M string :=
  memo log_kms_key_id set_log_kms_key_id
    (let* mode := get_log_archive_mode in
     if negb (String.eqb mode "s3") then raise InvalidState
     else pure_call (fun self => val self "LOG_KMS_KEY_ID" false false None)).

Definition get_notification_arn : M string :=
  memo notification_arn set_notification_arn
    (pure_call (fun self => val self "NOTIFICATION_ARN" false false None)).

(** ** Identifier builders *)

(** [name_chunks.append(x)] *)
Definition list_append {A} (l : list A) (x : A) : list A := (l ++ [x])%list.

(** One statement of the builders:
    [if include and len(self.get_x()) > 0: name_chunks.append(self.get_x())]. *)
Definition append_segment (include : bool) (get_x : M string)
    (name_chunks : list string) : M (list string) :=
  if include then
    let* x := get_x in
    if (0 <? Str.len x)%nat then
      let* x' := get_x in
      ret (list_append name_chunks x')
    else ret name_chunks
  else ret name_chunks.

(** [build_legacy_ssm_param_name(self, name, include_global_prefix=False,
    include_application_name=False, include_environment=False,
    include_stack_name=False)] *)
Definition build_legacy_ssm_param_name (name : string)
    (include_global_prefix include_application_name include_environment
     include_stack_name : bool) : M string :=
  let name_chunks := [] in
  let* name_chunks := append_segment include_global_prefix get_global_prefix name_chunks in
  let* name_chunks := append_segment include_application_name get_application_name name_chunks in
  let* name_chunks := append_segment include_environment get_environment name_chunks in
  let* name_chunks := append_segment include_stack_name get_stack_name name_chunks in
  let name_chunks := list_append name_chunks "ssm" in
  let name_chunks := list_append name_chunks name in
  ret (Str.join "-" name_chunks).

(** [build_ssm_param_name(self, name=None, include_global_prefix=False,
    include_application_name=False, include_environment=False,
    include_stack_name=False)] *)
Definition build_ssm_param_name (name : option string)
    (include_global_prefix include_application_name include_environment
     include_stack_name : bool) : M string :=
  let name_chunks := [EmptyString] in
  let* name_chunks := append_segment include_global_prefix get_global_prefix name_chunks in
  let* name_chunks := append_segment include_application_name get_application_name name_chunks in
  let* name_chunks := append_segment include_environment get_environment name_chunks in
  let* name_chunks := append_segment include_stack_name get_stack_name name_chunks in
  let name_chunks :=
    match name with
    | Some name => list_append (list_append name_chunks "ssm") name
    | None => list_append name_chunks EmptyString
    end in
  ret (Str.join "/" name_chunks).

(** [build_bucket_name(self, name, include_global_prefix=True,
    include_application_name=True, include_environment=False)] *)
Definition build_bucket_name (name : string)
    (include_global_prefix include_application_name include_environment : bool) : M string :=
  let name_chunks := [] in
  let* name_chunks := append_segment include_global_prefix get_global_prefix name_chunks in
  let* name_chunks := append_segment include_application_name get_application_name name_chunks in
  let* name_chunks := append_segment include_environment get_environment name_chunks in
  let name_chunks := list_append name_chunks name in
  ret (Str.join "-" name_chunks).

Definition get_log_bucket_name : M string :=
  memo log_bucket set_log_bucket
    (let* computed := build_bucket_name "logs" true true false in
     pure_call (fun self => val self "LOG_BUCKET_NAME" true false (Some computed))).

(** ** Calls and reachable instances *)

(** A value a method hands back. *)
Inductive pyval : Type :=
| PStr (s : string)
| PBool (b : bool)
| PInt (z : Z).

Definition map_result {A B} (f : A → B) (m : M A) : M B :=
  let* a := m in ret (f a).

(** The derived getters. *)
Inductive getter : Type :=
| GetApplicationName | GetDebugMode | GetLogLevel | GetLogPath | GetSafeMode
| GetAwsRegion | GetFipsMode | GetGlobalPrefix | GetEnvironment | GetStackName
| GetLogArchiveMode | GetLogKmsKeyId | GetNotificationArn | GetLogBucketName.

Definition call_getter (g : getter) : M pyval :=
  match g with
  | GetApplicationName => map_result PStr get_application_name
  | GetDebugMode => map_result PBool get_debug_mode
  | GetLogLevel => map_result PInt get_log_level
  | GetLogPath => map_result PStr get_log_path
  | GetSafeMode => map_result PBool get_safe_mode
  | GetAwsRegion => map_result PStr get_aws_region
  | GetFipsMode => map_result PBool get_fips_mode
  | GetGlobalPrefix => map_result PStr get_global_prefix
  | GetEnvironment => map_result PStr get_environment
  | GetStackName => map_result PStr get_stack_name
  | GetLogArchiveMode => map_result PStr get_log_archive_mode
  | GetLogKmsKeyId => map_result PStr get_log_kms_key_id
  | GetNotificationArn => map_result PStr get_notification_arn
  | GetLogBucketName => map_result PStr get_log_bucket_name
  end.

(** The methods that may assign attributes, with their arguments. *)
Inductive method : Type :=
| Getter (g : getter)
| BuildLegacySsmParamName (name : string) (gp an en sn : bool)
| BuildSsmParamName (name : option string) (gp an en sn : bool)
| BuildBucketName (name : string) (gp an en : bool).

Definition invoke (m : method) : M pyval :=
  match m with
  | Getter g => call_getter g
  | BuildLegacySsmParamName name gp an en sn =>
      map_result PStr (build_legacy_ssm_param_name name gp an en sn)
  | BuildSsmParamName name gp an en sn =>
      map_result PStr (build_ssm_param_name name gp an en sn)
  | BuildBucketName name gp an en =>
      map_result PStr (build_bucket_name name gp an en)
  end.

(** The instances a program can hold when it leaves the mappings alone:
    a new instance, and any instance after one more call. *)
Inductive reachable : LambdaConfig → Prop :=
| reach_init name env overrides lambda_overrides :
    reachable (__init__ name env overrides lambda_overrides)
| reach_call m self :
    reachable self → reachable (snd (invoke m self)).

(** ** Reference descriptions *)

(** The first source, in the order given, that holds a value. *)
Fixpoint first_hit (sources : list (option string)) : option string :=
  match sources with
  | [] => None
  | Some v :: _ => Some v
  | None :: rest => first_hit rest
  end.

(** The lookups of [name], highest priority first: the overrides of this
    caller, the global overrides, the environment, the defaults. *)
Definition lookups (self : LambdaConfig) (name : string) : list (option string) :=
  [ _lambda_overrides self !! _script_name self ≫= (λ overrides, overrides !! name);
    _overrides self !! name;
    _env self !! name;
    _defaults !! name ].

(** A setting is explicitly set when one of the four mappings holds it. *)
Definition explicitly_set (self : LambdaConfig) (name : string) : Prop :=
  is_Some (first_hit (lookups self name)).

(** What [val] does to a string it has found. *)
Definition post_process (name : string) (to_lower bool_coerce : bool) (value : string)
    : result (val_type bool_coerce) :=
  let value := if to_lower || bool_coerce then Str.lower value else value in
  match _validations !! name with
  | Some validations =>
      if bool_decide (value ∈ validations)
      then Ok (match bool_coerce return val_type bool_coerce with
               | true => bool_decide (value ∈ ["on"; "true"; "yes"])
               | false => value
               end)
      else Raise (InvalidConfigurationValue name validations)
  | None =>
      Ok (match bool_coerce return val_type bool_coerce with
          | true => bool_decide (value ∈ ["on"; "true"; "yes"])
          | false => value
          end)
  end.

(** The digit one of the Arabic-Indic script, U+0661, in UTF-8. *)
Definition arabic_indic_one : string :=
  String (ascii_of_nat 217) (String (ascii_of_nat 161) EmptyString).








(** [{x sep}]: the segment and its separator when the segment is included
    and not empty, nothing otherwise. *)
Definition opt (include : bool) (x sep : string) : string :=
  if include && (0 <? Str.len x)%nat then x ++ sep else EmptyString.

(** [{prefix-}{app-}{env-}{stack-}ssm-name] *)
Definition legacy_form (prefix app env stack : string) (gp an en sn : bool)
    (name : string) : string :=
  opt gp prefix "-" ++ opt an app "-" ++ opt en env "-" ++ opt sn stack "-"
  ++ "ssm-" ++ name.

(** [/{prefix/}{app/}{env/}{stack/}ssm/name], or [/{prefix/}{app/}{env/}{stack/}]
    when the name is omitted. *)
Definition hierarchical_form (prefix app env stack : string) (gp an en sn : bool)
    (name : option string) : string :=
  "/" ++ opt gp prefix "/" ++ opt an app "/" ++ opt en env "/" ++ opt sn stack "/"
  ++ match name with Some name => "ssm/" ++ name | None => EmptyString end.

(** [{prefix-}{app-}{env-}name] *)
Definition bucket_form (prefix app env : string) (gp an en : bool) (name : string) : string :=
  opt gp prefix "-" ++ opt an app "-" ++ opt en env "-" ++ name.

(** The optional segments that make it into an identifier, in order: those
    whose flag is set and whose value is not empty. *)
Definition optional_segments (candidates : list (bool * string)) : list string :=
  map snd (List.filter (λ c, fst c && (0 <? Str.len (snd c))%nat) candidates).

(** What each getter computes from the mappings alone. *)
Definition resolved_aws_region (self : LambdaConfig) : result string :=
  val self "AWS_REGION" true false None.

Definition resolved_debug_mode (self : LambdaConfig) : result bool :=
  val self "DEBUG_MODE" false true None.

Definition resolved_log_level (self : LambdaConfig) : result Z :=
  match resolved_debug_mode self with
  | Ok debug => Ok (if debug then logging_DEBUG else logging_INFO)
  | Raise e => Raise e
  end.

Definition resolved_fips_mode (self : LambdaConfig) : result bool :=
  match resolved_aws_region self with
  | Ok region =>
      val self "FIPS_MODE" false true (Some (if in_gov_cloud region then "on" else "off"))
  | Raise e => Raise e
  end.

Definition resolved_log_archive_mode (self : LambdaConfig) : result string :=
  val self "LOG_ARCHIVE_MODE" true false None.

Definition resolved_log_kms_key_id (self : LambdaConfig) : result string :=
  match resolved_log_archive_mode self with
  | Ok mode =>
      if negb (String.eqb mode "s3") then Raise InvalidState
      else val self "LOG_KMS_KEY_ID" false false None
  | Raise e => Raise e
  end.

(** A segment setting (one with the empty string as its default), lower-cased. *)
Definition segment (self : LambdaConfig) (name : string) : string :=
  Str.lower (default EmptyString (first_hit (lookups self name))).

Definition resolved_bucket_name (self : LambdaConfig) (name : string) (gp an en : bool) : string :=
  Str.join "-"
    (optional_segments [(gp, segment self "GLOBAL_PREFIX");
                        (an, segment self "APPLICATION_NAME");
                        (en, segment self "ENVIRONMENT")] ++ [name])%list.

Definition resolved_log_bucket (self : LambdaConfig) : result string :=
  val self "LOG_BUCKET_NAME" true false
    (Some (resolved_bucket_name self "logs" true true false)).

Definition resolved_application_name (self : LambdaConfig) : result string :=
  val self "APPLICATION_NAME" true false None.

Definition resolved_log_path (self : LambdaConfig) : result string :=
  val self "LOG_PATH" false false None.

Definition resolved_safe_mode (self : LambdaConfig) : result bool :=
  val self "SAFE_MODE" false true None.

Definition resolved_global_prefix (self : LambdaConfig) : result string :=
  val self "GLOBAL_PREFIX" true false None.

Definition resolved_environment (self : LambdaConfig) : result string :=
  val self "ENVIRONMENT" true false None.

Definition resolved_stack_name (self : LambdaConfig) : result string :=
  val self "STACK_NAME" true false None.

Definition resolved_notification_arn (self : LambdaConfig) : result string :=
  val self "NOTIFICATION_ARN" false false None.

(** Every computed attribute holds what the mappings give. *)
Record cache_ok (self : LambdaConfig) : Prop := mk_cache_ok {
  ok_application_name : ∀ v, application_name self = Some v →
    resolved_application_name self = Ok v;
  ok_debug_mode : ∀ v, debug_mode self = Some v → resolved_debug_mode self = Ok v;
  ok_log_level : ∀ v, log_level self = Some v → resolved_log_level self = Ok v;
  ok_log_path : ∀ v, log_path self = Some v → resolved_log_path self = Ok v;
  ok_safe_mode : ∀ v, safe_mode self = Some v → resolved_safe_mode self = Ok v;
  ok_fips_mode : ∀ v, fips_mode self = Some v → resolved_fips_mode self = Ok v;
  ok_log_archive_mode : ∀ v, log_archive_mode self = Some v →
    resolved_log_archive_mode self = Ok v;
  ok_aws_region : ∀ v, aws_region self = Some v → resolved_aws_region self = Ok v;
  ok_log_bucket : ∀ v, log_bucket self = Some v → resolved_log_bucket self = Ok v;
  ok_log_kms_key_id : ∀ v, log_kms_key_id self = Some v →
    resolved_log_kms_key_id self = Ok v;
  ok_global_prefix : ∀ v, global_prefix self = Some v →
    resolved_global_prefix self = Ok v;
  ok_environment : ∀ v, environment self = Some v → resolved_environment self = Ok v;
  ok_stack_name : ∀ v, stack_name self = Some v → resolved_stack_name self = Ok v;
  ok_notification_arn : ∀ v, notification_arn self = Some v →
    resolved_notification_arn self = Ok v
}.

(** The test suite's settings for the identifier builders. *)
Definition naming_env : gmap string string :=
  list_to_map [("GLOBAL_PREFIX", "test"); ("APPLICATION_NAME", "myappname");
               ("ENVIRONMENT", "dev"); ("STACK_NAME", "stack-a")].

(** The mappings an instance reads, and its name. *)
Definition sources (self : LambdaConfig) :
    string * gmap string string * gmap string (gmap string string) * gmap string string :=
  (_script_name self, _overrides self, _lambda_overrides self, _env self).

(** [description] reads nothing but the mappings. *)
Definition reads_sources {A} (description : LambdaConfig → A) : Prop :=
  ∀ s s', sources s = sources s' → description s = description s'.

(** On an instance whose computed attributes are right, [m] hands back what
    [description] says, keeps the attributes right and the mappings as they
    were. *)
Definition computes {A} (m : M A) (description : LambdaConfig → result A) : Prop :=
  ∀ self, cache_ok self →
    fst (m self) = description self ∧
    cache_ok (snd (m self)) ∧
    sources (snd (m self)) = sources self.

(** The attribute a getter fills, as the value the getter hands back. *)
Definition slot_of (g : getter) (self : LambdaConfig) : option pyval :=
  match g with
  | GetApplicationName => PStr <$> application_name self
  | GetDebugMode => PBool <$> debug_mode self
  | GetLogLevel => PInt <$> log_level self
  | GetLogPath => PStr <$> log_path self
  | GetSafeMode => PBool <$> safe_mode self
  | GetAwsRegion => PStr <$> aws_region self
  | GetFipsMode => PBool <$> fips_mode self
  | GetGlobalPrefix => PStr <$> global_prefix self
  | GetEnvironment => PStr <$> environment self
  | GetStackName => PStr <$> stack_name self
  | GetLogArchiveMode => PStr <$> log_archive_mode self
  | GetLogKmsKeyId => PStr <$> log_kms_key_id self
  | GetNotificationArn => PStr <$> notification_arn self
  | GetLogBucketName => PStr <$> log_bucket self
  end.

(** [m] keeps the computed attributes right and the mappings as they were. *)
Definition cache_ok_preserved {A} (m : M A) : Prop :=
  ∀ self, cache_ok self → cache_ok (snd (m self)) ∧ sources (snd (m self)) = sources self.

(** * layer_updater: finding and repointing outdated layers

    The functions of [src/layer_updater.py] that compute: the parsing of a
    layer version ARN and, from the body of [lambda_handler], the selection of
    the functions that use a layer, the choice of the best layer version and
    the new layer list of a function.  The calls to AWS and to the logger lie
    outside; what the code reads from their answers is a parameter here, and
    what it passes to them is a result. *)

Module LayerUpdater.

(** The classes of the exceptions these functions raise. *)
Inductive error : Type :=
| ValueError
| TypeError
| AttributeError.

Inductive outcome (A : Type) : Type :=
| Return (a : A)
| Raised (e : error).
Arguments Return {A} a.
Arguments Raised {A} e.

Definition and_then {A B} (o : outcome A) (k : A → outcome B) : outcome B :=
  match o with
  | Return a => k a
  | Raised e => Raised e
  end.

(** [[f(x) for x in xs]], and a loop appending [f(x)] for each [x]: left to
    right, the first exception ends it. *)
Fixpoint for_each {A B} (f : A → outcome B) (xs : list A) : outcome (list B) :=
  match xs with
  | [] => Return []
  | x :: rest =>
      and_then (f x) (λ y,
      and_then (for_each f rest) (λ ys,
      Return (y :: ys)))
  end.

(** The first piece of [s.split(sep)] and the pieces after it. *)
Fixpoint split_first (sep : ascii) (s : string) : string * list string :=
  match s with
  | EmptyString => (EmptyString, [])
  | String c r =>
      let (piece, pieces) := split_first sep r in
      if Ascii.eqb c sep then (EmptyString, piece :: pieces)
      else (String c piece, pieces)
  end.

(** [s.split(sep)] for a separator of one character. *)
Definition split (sep : ascii) (s : string) : list string :=
  let (piece, pieces) := split_first sep s in piece :: pieces.

Definition colon : ascii := ascii_of_nat 58.

(** The dictionary [parse_lambda_layer_arn] returns. *)
Record layer_arn : Type := mk_layer_arn {
  region : string;
  account_id : string;
  layer : string;
  version : Z
}.

(** [parse_lambda_layer_arn(arn)].  [int] is Python's [int] on a [str]:
    the number, or [None] where it raises [ValueError].  An [arn] that is
    [None] has no [split]. *)
Definition parse_lambda_layer_arn (int : string → option Z) (arn : option string)
    : outcome layer_arn :=
  match arn with
  | None => Raised AttributeError
  | Some arn =>
      match split colon arn with
      | [_; _; _; region; account_id; _; layer_name; layer_version] =>
          match int layer_version with
          | Some v =>
              Return {| region := region; account_id := account_id;
                        layer := layer_name; version := v |}
          | None => Raised ValueError
          end
      | _ => Raised ValueError
      end
  end.

(** [get_layer_version_from_arn(arn)] *)
Definition get_layer_version_from_arn (int : string → option Z) (arn : option string)
    : outcome Z :=
  and_then (parse_lambda_layer_arn int arn) (λ parsed, Return (version parsed)).

(** [max(items, key=key)] after its first item: [best] is kept until an item
    with a strictly greater key comes. *)
Fixpoint max_from {A} (key : A → outcome Z) (best : A) (best_key : Z) (items : list A)
    : outcome A :=
  match items with
  | [] => Return best
  | x :: rest =>
      and_then (key x) (λ k,
      if (best_key <? k)%Z then max_from key x k rest
      else max_from key best best_key rest)
  end.

(** [max(items, key=key)]: [ValueError] on an empty list. *)
Definition max_by {A} (key : A → outcome Z) (items : list A) : outcome A :=
  match items with
  | [] => Raised ValueError
  | x :: rest => and_then (key x) (λ k, max_from key x k rest)
  end.

(** [best_layer_version = max(layer_versions, key=get_layer_version_from_arn)] *)
Definition best_layer_version (int : string → option Z)
    (layer_versions : list (option string)) : outcome (option string) :=
  max_by (get_layer_version_from_arn int) layer_versions.

(** An element of a function's 'Layers': a dictionary, of which the code
    reads 'Arn'. *)
Record layer_entry : Type := mk_layer_entry {
  Arn : option string
}.

(** A function configuration as AWS answers it; a key that is absent reads
    as [None]. *)
Record lambda_function : Type := mk_lambda_function {
  FunctionName : option string;
  FunctionArn : option string;
  Runtime : option string;
  Layers : option (list layer_entry)
}.

(** [[parse_lambda_layer_arn(layer.get('Arn')).get('layer')
      for layer in lambda_function.get('Layers')]] *)
Definition layer_names (int : string → option Z) (lambda_function : lambda_function)
    : outcome (list string) :=
  match Layers lambda_function with
  | None => Raised TypeError
  | Some layers =>
      for_each (λ layer,
        and_then (parse_lambda_layer_arn int (Arn layer)) (λ parsed,
        Return (LayerUpdater.layer parsed))) layers
  end.


(** The loop that fills [new_layers], over the list of 'Arn' values. *)
Definition new_layers (int : string → option Z) (layer_name : string)
    (best : option string) (arns : list (option string))
    : outcome (list (option string)) :=
  for_each (λ arn,
    and_then (parse_lambda_layer_arn int arn) (λ parsed,
    Return (if String.eqb (layer parsed) layer_name then best else arn))) arns.

(** [best_layer_version == layer] for an element [layer] of 'Layers': a
    [str] (or [None]) against a dictionary, which are never equal. *)
Definition equals_entry (best : option string) (layer : layer_entry) : bool := false.

(** What one round of the update loop passes to
    [update_function_configuration]. *)
Record update_request : Type := mk_update_request {
  request_FunctionName : option string;
  request_Layers : list (option string)
}.

(** [sep.join(items)] where an item may be [None]: [TypeError] then. *)
Fixpoint join_items (sep : string) (items : list (option string)) : outcome string :=
  match items with
  | [] => Return EmptyString
  | [item] =>
      match item with
      | Some x => Return x
      | None => Raised TypeError
      end
  | item :: rest =>
      match item with
      | Some x => and_then (join_items sep rest) (λ joined, Return (x ++ sep ++ joined))
      | None => Raised TypeError
      end
  end.

(** One round of the update loop, up to the call it makes: the request, or
    [None] when the round makes no call.  The log line written before the
    call joins the new layers with commas. *)
Definition planned_update (int : string → option Z) (layer_name : string)
    (best : option string) (target_function : lambda_function)
    : outcome (option update_request) :=
  match Layers target_function with
  | None => Raised TypeError
  | Some layers =>
      if negb (existsb (equals_entry best) layers) then
        and_then (new_layers int layer_name best (map Arn layers)) (λ layers',
        and_then (join_items "," layers') (λ _,
        Return (Some {| request_FunctionName := FunctionArn target_function;
                        request_Layers := layers' |})))
      else Return None
  end.

(** Python's [int] on a run of ASCII digits, for the examples. *)
Fixpoint digits_value (acc : Z) (s : string) : option Z :=
  match s with
  | EmptyString => Some acc
  | String c r =>
      if Str.is_digit c
      then digits_value (10 * acc + Z.of_nat (nat_of_ascii c - 48)) r
      else None
  end.

Definition int_of_digits (s : string) : option Z :=
  match s with
  | EmptyString => None
  | _ => digits_value 0 s
  end.

(** A text without colon. *)
Fixpoint colon_free (s : string) : bool :=
  match s with
  | EmptyString => true
  | String c r => negb (Ascii.eqb c colon) && colon_free r
  end.

End LayerUpdater.

(** * lambda_core: archiving a log file

    [LambdaCore.archive_log_file] of [lib/crimsoncore/lambda_core.py], up to
    the call it makes to the S3 client: the request it passes to
    [put_object], or [None] when it makes no call.  The logger lies outside. *)

Module LambdaCore.

(** What the method can raise before its call to S3: an exception of the
    configuration, or the [AttributeError] of [self.s3.put_object] while
    [self.s3] is still [None]. *)
Inductive error : Type :=
| ConfigError (e : exn)
| AttributeError.

Inductive outcome (A : Type) : Type :=
| Done (a : A)
| Failed (e : error).
Arguments Done {A} a.
Arguments Failed {A} e.

(** The keyword arguments of [self.s3.put_object]. *)
Record put_object_request : Type := mk_put_object_request {
  Bucket : string;
  Key : string;
  Body : string;
  ServerSideEncryption : string;
  SSEKMSKeyId : string
}.

(** [archive_log_file(self, filepath, data)] on the configuration
    [self.config]; [s3_initialised] tells whether [init_s3] has assigned
    [self.s3].  The callee [self.s3.put_object] is looked up before its
    arguments are computed, the arguments from left to right; [data.encode]
    leaves ASCII text as it is. *)
Definition archive_log_file (s3_initialised : bool) (filepath data : string)
    (config : LambdaConfig) : outcome (option put_object_request) * LambdaConfig :=
  match get_log_archive_mode config with
  | (Raise e, config) => (Failed (ConfigError e), config)
  | (Ok mode, config) =>
      if String.eqb mode "s3" then
        if negb s3_initialised then (Failed AttributeError, config)
        else
          match get_log_bucket_name config with
          | (Raise e, config) => (Failed (ConfigError e), config)
          | (Ok bucket, config) =>
              match get_log_kms_key_id config with
              | (Raise e, config) => (Failed (ConfigError e), config)
              | (Ok key, config) =>
                  (Done (Some {| Bucket := bucket; Key := filepath; Body := data;
                                 ServerSideEncryption := "aws:kms";
                                 SSEKMSKeyId := key |}), config)
              end
          end
      else
        match get_log_archive_mode config with
        | (Raise e, config) => (Failed (ConfigError e), config)
        | (Ok mode', config) =>
            if String.eqb mode' "stdout" then (Done None, config)
            else (Done None, config)
        end
  end.

End LambdaCore.

(** ** Descriptions of whole calls *)

Definition map_ok {A B} (f : A → B) (r : result A) : result B :=
  match r with
  | Ok a => Ok (f a)
  | Raise e => Raise e
  end.

(** What a getter hands back, from the mappings alone. *)
Definition resolved (g : getter) (self : LambdaConfig) : result pyval :=
  match g with
  | GetApplicationName => map_ok PStr (resolved_application_name self)
  | GetDebugMode => map_ok PBool (resolved_debug_mode self)
  | GetLogLevel => map_ok PInt (resolved_log_level self)
  | GetLogPath => map_ok PStr (resolved_log_path self)
  | GetSafeMode => map_ok PBool (resolved_safe_mode self)
  | GetAwsRegion => map_ok PStr (resolved_aws_region self)
  | GetFipsMode => map_ok PBool (resolved_fips_mode self)
  | GetGlobalPrefix => map_ok PStr (resolved_global_prefix self)
  | GetEnvironment => map_ok PStr (resolved_environment self)
  | GetStackName => map_ok PStr (resolved_stack_name self)
  | GetLogArchiveMode => map_ok PStr (resolved_log_archive_mode self)
  | GetLogKmsKeyId => map_ok PStr (resolved_log_kms_key_id self)
  | GetNotificationArn => map_ok PStr (resolved_notification_arn self)
  | GetLogBucketName => map_ok PStr (resolved_log_bucket self)
  end.

(** The getters that lower-case what they find. *)
Definition lower_cased (g : getter) : bool :=
  match g with
  | GetApplicationName | GetAwsRegion | GetGlobalPrefix | GetEnvironment
  | GetStackName | GetLogArchiveMode | GetLogBucketName => true
  | _ => false
  end.

(** [m] leaves the observation [f] of the instance as it was. *)
Definition preserves {A B} (f : LambdaConfig → B) (m : M A) : Prop :=
  ∀ self, f (snd (m self)) = f self.

(** The instance with the overrides of one more caller. *)
Definition with_caller_overrides (caller : string) (overrides : gmap string string)
    (self : LambdaConfig) : LambdaConfig :=
  with_sources (_env self) (_overrides self)
    (<[caller := overrides]> (_lambda_overrides self)) self.

(** ** Proof steps *)

(** An assignment to one attribute leaves the others, and the mappings,
    as they were. *)
Ltac keep_cache_ok :=
  let Hok := fresh "Hok" in
  let Hv := fresh "Hv" in
  intros ? ? Hok Hv;
  destruct Hok as [H1 H2 H3 H4 H5 H6 H7 H8 H9 H10 H11 H12 H13 H14];
  constructor; intros w Hw; simpl in Hw;
  first [ injection Hw as Hw; subst; exact Hv
        | exact (H1 w Hw) | exact (H2 w Hw) | exact (H3 w Hw) | exact (H4 w Hw)
        | exact (H5 w Hw) | exact (H6 w Hw) | exact (H7 w Hw) | exact (H8 w Hw)
        | exact (H9 w Hw) | exact (H10 w Hw) | exact (H11 w Hw) | exact (H12 w Hw)
        | exact (H13 w Hw) | exact (H14 w Hw) ].

(** Case analysis on which optional segments are joined. *)
Ltac split_conditions :=
  unfold optional_segments, opt; cbn [List.filter map fst snd];
  repeat match goal with
  | |- context [if (?f && (0 <? Str.len ?x)%nat)%bool then _ else _] =>
      destruct (f && (0 <? Str.len x)%nat)%bool
  end.

(** * Properties *)

(** ** Strings *)

Lemma join_app_last sep (l : list string) (x : string) :
  Str.join sep (l ++ [x])%list = fold_right (λ y acc, y ++ sep ++ acc) x l.
Proof.
  induction l as [|y l IH]; [reflexivity|].
  simpl. rewrite <- IH. destruct (l ++ [x])%list eqn:E; [|reflexivity].
  destruct l; discriminate.
Qed.

Lemma string_app_assoc (a b c : string) : (a ++ b) ++ c = a ++ (b ++ c).
Proof.
  induction a as [|ch a IH]; [reflexivity|].
  change (String ch ((a ++ b) ++ c) = String ch (a ++ (b ++ c))). f_equal. exact IH.
Qed.

Lemma len_zero (x : string) : (0 <? Str.len x)%nat = false ↔ x = EmptyString.
Proof.
  destruct x as [|ch x]; split; intros H; try reflexivity; discriminate H.
Qed.

(** ** The resolution chain *)

Lemma _get_val_first_hit self name default_override :
  _get_val self name default_override =
  match first_hit (lookups self name ++ [default_override]) with
  | Some v => Ok v
  | None => Raise (MissingConfiguration name)
  end.
Proof.
  unfold _get_val, lookups. simpl.
  destruct (_lambda_overrides self !! _script_name self) as [o|]; simpl.
  - destruct (o !! name); [reflexivity|].
    destruct (_overrides self !! name); [reflexivity|].
    destruct (_env self !! name); [reflexivity|].
    destruct (_defaults !! name); [reflexivity|].
    destruct default_override; reflexivity.
  - destruct (_overrides self !! name); [reflexivity|].
    destruct (_env self !! name); [reflexivity|].
    destruct (_defaults !! name); [reflexivity|].
    destruct default_override; reflexivity.
Qed.

Lemma first_hit_app l d :
  first_hit (l ++ [d]) = match first_hit l with Some v => Some v | None => d end.
Proof. induction l as [|[v|] l IH]; simpl; [destruct d| |]; auto. Qed.

Lemma val_post_process self name to_lower bool_coerce default_override :
  val self name to_lower bool_coerce default_override =
  match first_hit (lookups self name ++ [default_override]) with
  | Some v => post_process name to_lower bool_coerce v
  | None => Raise (MissingConfiguration name)
  end.
Proof.
  unfold val. rewrite _get_val_first_hit.
  destruct (first_hit _) as [v|]; [|reflexivity].
  unfold post_process, _validate_val.
  destruct (_validations !! name); [|reflexivity].
  destruct (bool_decide _); reflexivity.
Qed.

Lemma val_sources s s' name to_lower bool_coerce default_override :
  sources s = sources s' →
  val s name to_lower bool_coerce default_override
  = val s' name to_lower bool_coerce default_override.
Proof.
  intros H. unfold sources in H. injection H as H1 H2 H3 H4.
  rewrite !val_post_process. unfold lookups. rewrite H1, H2, H3, H4. reflexivity.
Qed.

Lemma first_hit_default self name d :
  _defaults !! name = Some d → is_Some (first_hit (lookups self name)).
Proof.
  intros H. unfold lookups. rewrite H.
  destruct (_ ≫= _); simpl; [eauto|].
  destruct (_overrides self !! name); simpl; [eauto|].
  destruct (_env self !! name); simpl; eauto.
Qed.

Lemma val_segment self name :
  _defaults !! name = Some EmptyString → _validations !! name = None →
  val self name true false None = Ok (segment self name).
Proof.
  intros Hd Hv. rewrite val_post_process, first_hit_app. unfold segment.
  destruct (first_hit_default self name _ Hd) as [v ->].
  unfold post_process. rewrite Hv. reflexivity.
Qed.

Lemma segment_sources s s' name :
  sources s = sources s' → segment s name = segment s' name.
Proof.
  intros H. unfold sources in H. injection H as H1 H2 H3 H4.
  unfold segment, lookups. rewrite H1, H2, H3, H4. reflexivity.
Qed.

(** ** Method bodies against their descriptions *)

Lemma computes_ret {A} (a : A) : computes (ret a) (λ _, Ok a).
Proof. intros self Hok. simpl. auto. Qed.

Lemma computes_raise {A} e : computes (@raise A e) (λ _, Raise e).
Proof. intros self Hok. simpl. auto. Qed.

Lemma computes_pure_call {A} (f : LambdaConfig → result A) : computes (pure_call f) f.
Proof. intros self Hok. simpl. auto. Qed.

Lemma computes_bind {A B} (m : M A) (k : A → M B) d1 d2 :
  computes m d1 → (∀ a, computes (k a) (d2 a)) → (∀ a, reads_sources (d2 a)) →
  computes (bind m k)
    (λ self, match d1 self with Ok a => d2 a self | Raise e => Raise e end).
Proof.
  intros Hm Hk Hd self Hok. unfold bind.
  destruct (Hm self Hok) as (Hr & Hok' & Hs).
  destruct (m self) as [[a|e] self']; simpl in *; rewrite <- Hr.
  - destruct (Hk a self' Hok') as (Hr2 & Hok2 & Hs2).
    rewrite Hr2, (Hd a _ _ Hs), Hs2. auto.
  - auto.
Qed.

Lemma computes_equal {A} (m : M A) d d' :
  computes m d → (∀ self, d self = d' self) → computes m d'.
Proof.
  intros Hm He self Hok. rewrite <- He. apply Hm, Hok.
Qed.

Lemma computes_memo {A} (slot : LambdaConfig → option A) assign compute d :
  (∀ self v, cache_ok self → slot self = Some v → d self = Ok v) →
  (∀ self v, cache_ok self → d self = Ok v → cache_ok (assign v self)) →
  (∀ self v, sources (assign v self) = sources self) →
  reads_sources d →
  computes compute d → computes (memo slot assign compute) d.
Proof.
  intros Hslot Hassign Hsrc Hd Hc self Hok. unfold memo.
  destruct (slot self) as [v|] eqn:E; simpl.
  - rewrite (Hslot _ _ Hok E). auto.
  - destruct (Hc self Hok) as (Hr & Hok' & Hs).
    destruct (compute self) as [[v|e] self']; simpl in *.
    + split; [exact Hr|]. split; [|rewrite Hsrc; exact Hs].
      apply Hassign; [exact Hok'|]. rewrite (Hd _ _ Hs). symmetry. exact Hr.
    + auto.
Qed.

(** ** Assignments keep the computed attributes right *)

Lemma cache_ok_set_application_name self v :
  cache_ok self → resolved_application_name self = Ok v →
  cache_ok (set_application_name v self).
Proof. revert self v. keep_cache_ok. Qed.

Lemma cache_ok_set_debug_mode self v :
  cache_ok self → resolved_debug_mode self = Ok v → cache_ok (set_debug_mode v self).
Proof. revert self v. keep_cache_ok. Qed.

Lemma cache_ok_set_log_level self v :
  cache_ok self → resolved_log_level self = Ok v → cache_ok (set_log_level v self).
Proof. revert self v. keep_cache_ok. Qed.

Lemma cache_ok_set_log_path self v :
  cache_ok self → resolved_log_path self = Ok v → cache_ok (set_log_path v self).
Proof. revert self v. keep_cache_ok. Qed.

Lemma cache_ok_set_safe_mode self v :
  cache_ok self → resolved_safe_mode self = Ok v → cache_ok (set_safe_mode v self).
Proof. revert self v. keep_cache_ok. Qed.

Lemma cache_ok_set_fips_mode self v :
  cache_ok self → resolved_fips_mode self = Ok v → cache_ok (set_fips_mode v self).
Proof. revert self v. keep_cache_ok. Qed.

Lemma cache_ok_set_log_archive_mode self v :
  cache_ok self → resolved_log_archive_mode self = Ok v →
  cache_ok (set_log_archive_mode v self).
Proof. revert self v. keep_cache_ok. Qed.

Lemma cache_ok_set_aws_region self v :
  cache_ok self → resolved_aws_region self = Ok v → cache_ok (set_aws_region v self).
Proof. revert self v. keep_cache_ok. Qed.

Lemma cache_ok_set_log_bucket self v :
  cache_ok self → resolved_log_bucket self = Ok v → cache_ok (set_log_bucket v self).
Proof. revert self v. keep_cache_ok. Qed.

Lemma cache_ok_set_log_kms_key_id self v :
  cache_ok self → resolved_log_kms_key_id self = Ok v →
  cache_ok (set_log_kms_key_id v self).
Proof. revert self v. keep_cache_ok. Qed.

Lemma cache_ok_set_global_prefix self v :
  cache_ok self → resolved_global_prefix self = Ok v →
  cache_ok (set_global_prefix v self).
Proof. revert self v. keep_cache_ok. Qed.

Lemma cache_ok_set_environment self v :
  cache_ok self → resolved_environment self = Ok v → cache_ok (set_environment v self).
Proof. revert self v. keep_cache_ok. Qed.

Lemma cache_ok_set_stack_name self v :
  cache_ok self → resolved_stack_name self = Ok v → cache_ok (set_stack_name v self).
Proof. revert self v. keep_cache_ok. Qed.

Lemma cache_ok_set_notification_arn self v :
  cache_ok self → resolved_notification_arn self = Ok v →
  cache_ok (set_notification_arn v self).
Proof. revert self v. keep_cache_ok. Qed.

Lemma cache_ok_init name env overrides lambda_overrides :
  cache_ok (__init__ name env overrides lambda_overrides).
Proof. constructor; intros v Hv; discriminate Hv. Qed.

(** ** The getters against their descriptions *)

Lemma resolved_simple_sources_eq s s' :
  sources s = sources s' → resolved_log_archive_mode s = resolved_log_archive_mode s'.
Proof. intros H. exact (val_sources _ _ _ _ false _ H). Qed.

Lemma resolved_log_level_sources : reads_sources resolved_log_level.
Proof.
  intros s s' H. unfold resolved_log_level, resolved_debug_mode.
  rewrite (val_sources s s' "DEBUG_MODE" false true None H). reflexivity.
Qed.

Lemma resolved_fips_mode_sources : reads_sources resolved_fips_mode.
Proof.
  intros s s' H. unfold resolved_fips_mode, resolved_aws_region.
  rewrite (val_sources s s' "AWS_REGION" _ _ _ H).
  destruct (val s' "AWS_REGION" true false None); [|reflexivity].
  exact (val_sources _ _ _ _ true _ H).
Qed.

Lemma resolved_log_kms_key_id_sources : reads_sources resolved_log_kms_key_id.
Proof.
  intros s s' H. unfold resolved_log_kms_key_id, resolved_log_archive_mode.
  rewrite (val_sources s s' "LOG_ARCHIVE_MODE" _ _ _ H).
  destruct (val s' "LOG_ARCHIVE_MODE" true false None) as [mode|]; [|reflexivity].
  destruct (negb _); [reflexivity|]. exact (val_sources _ _ _ _ false _ H).
Qed.

Lemma resolved_log_bucket_sources : reads_sources resolved_log_bucket.
Proof.
  intros s s' H. unfold resolved_log_bucket, resolved_bucket_name.
  rewrite !(segment_sources s s' _ H). exact (val_sources _ _ _ _ false _ H).
Qed.

Lemma get_application_name_computes :
  computes get_application_name resolved_application_name.
Proof.
  apply computes_memo;
    [ intros self v Hok; apply (ok_application_name self Hok)
    | apply cache_ok_set_application_name | reflexivity
    | intros s s' H;
      first [exact (val_sources _ _ _ _ true _ H) | exact (val_sources _ _ _ _ false _ H)]
    | apply computes_pure_call ].
Qed.

Lemma get_debug_mode_computes : computes get_debug_mode resolved_debug_mode.
Proof.
  apply computes_memo;
    [ intros self v Hok; apply (ok_debug_mode self Hok)
    | apply cache_ok_set_debug_mode | reflexivity
    | intros s s' H;
      first [exact (val_sources _ _ _ _ true _ H) | exact (val_sources _ _ _ _ false _ H)]
    | apply computes_pure_call ].
Qed.

Lemma get_log_level_computes : computes get_log_level resolved_log_level.
Proof.
  apply computes_memo;
    [ intros self v Hok; apply (ok_log_level self Hok)
    | apply cache_ok_set_log_level | reflexivity
    | apply resolved_log_level_sources | ].
  apply (computes_bind get_debug_mode _ resolved_debug_mode
           (λ debug _, Ok (if debug then logging_DEBUG else logging_INFO))).
  - apply get_debug_mode_computes.
  - intros debug. apply computes_ret.
  - intros debug s s' _. reflexivity.
Qed.

Lemma get_log_path_computes : computes get_log_path resolved_log_path.
Proof.
  apply computes_memo;
    [ intros self v Hok; apply (ok_log_path self Hok)
    | apply cache_ok_set_log_path | reflexivity
    | intros s s' H;
      first [exact (val_sources _ _ _ _ true _ H) | exact (val_sources _ _ _ _ false _ H)]
    | apply computes_pure_call ].
Qed.

Lemma get_safe_mode_computes : computes get_safe_mode resolved_safe_mode.
Proof.
  apply computes_memo;
    [ intros self v Hok; apply (ok_safe_mode self Hok)
    | apply cache_ok_set_safe_mode | reflexivity
    | intros s s' H;
      first [exact (val_sources _ _ _ _ true _ H) | exact (val_sources _ _ _ _ false _ H)]
    | apply computes_pure_call ].
Qed.

Lemma get_aws_region_computes : computes get_aws_region resolved_aws_region.
Proof.
  apply computes_memo;
    [ intros self v Hok; apply (ok_aws_region self Hok)
    | apply cache_ok_set_aws_region | reflexivity
    | intros s s' H;
      first [exact (val_sources _ _ _ _ true _ H) | exact (val_sources _ _ _ _ false _ H)]
    | apply computes_pure_call ].
Qed.

Lemma get_fips_mode_computes : computes get_fips_mode resolved_fips_mode.
Proof.
  apply computes_memo;
    [ intros self v Hok; apply (ok_fips_mode self Hok)
    | apply cache_ok_set_fips_mode | reflexivity
    | apply resolved_fips_mode_sources | ].
  apply (computes_bind get_aws_region _ resolved_aws_region
           (λ region self, val self "FIPS_MODE" false true
                             (Some (if in_gov_cloud region then "on" else "off")))).
  - apply get_aws_region_computes.
  - intros region. apply computes_pure_call.
  - intros region s s' H. exact (val_sources _ _ _ _ true _ H).
Qed.

Lemma get_global_prefix_computes : computes get_global_prefix resolved_global_prefix.
Proof.
  apply computes_memo;
    [ intros self v Hok; apply (ok_global_prefix self Hok)
    | apply cache_ok_set_global_prefix | reflexivity
    | intros s s' H;
      first [exact (val_sources _ _ _ _ true _ H) | exact (val_sources _ _ _ _ false _ H)]
    | apply computes_pure_call ].
Qed.

Lemma get_environment_computes : computes get_environment resolved_environment.
Proof.
  apply computes_memo;
    [ intros self v Hok; apply (ok_environment self Hok)
    | apply cache_ok_set_environment | reflexivity
    | intros s s' H;
      first [exact (val_sources _ _ _ _ true _ H) | exact (val_sources _ _ _ _ false _ H)]
    | apply computes_pure_call ].
Qed.

Lemma get_stack_name_computes : computes get_stack_name resolved_stack_name.
Proof.
  apply computes_memo;
    [ intros self v Hok; apply (ok_stack_name self Hok)
    | apply cache_ok_set_stack_name | reflexivity
    | intros s s' H;
      first [exact (val_sources _ _ _ _ true _ H) | exact (val_sources _ _ _ _ false _ H)]
    | apply computes_pure_call ].
Qed.

Lemma get_log_archive_mode_computes :
  computes get_log_archive_mode resolved_log_archive_mode.
Proof.
  apply computes_memo;
    [ intros self v Hok; apply (ok_log_archive_mode self Hok)
    | apply cache_ok_set_log_archive_mode | reflexivity
    | intros s s' H;
      first [exact (val_sources _ _ _ _ true _ H) | exact (val_sources _ _ _ _ false _ H)]
    | apply computes_pure_call ].
Qed.

Lemma get_log_kms_key_id_computes :
  computes get_log_kms_key_id resolved_log_kms_key_id.
Proof.
  apply computes_memo;
    [ intros self v Hok; apply (ok_log_kms_key_id self Hok)
    | apply cache_ok_set_log_kms_key_id | reflexivity
    | apply resolved_log_kms_key_id_sources | ].
  apply (computes_bind get_log_archive_mode _ resolved_log_archive_mode
           (λ mode self, if negb (String.eqb mode "s3") then Raise InvalidState
                         else val self "LOG_KMS_KEY_ID" false false None)).
  - apply get_log_archive_mode_computes.
  - intros mode. destruct (negb _); [apply computes_raise | apply computes_pure_call].
  - intros mode s s' H.
    destruct (negb _); [reflexivity | exact (val_sources _ _ _ _ false _ H)].
Qed.

Lemma get_notification_arn_computes :
  computes get_notification_arn resolved_notification_arn.
Proof.
  apply computes_memo;
    [ intros self v Hok; apply (ok_notification_arn self Hok)
    | apply cache_ok_set_notification_arn | reflexivity
    | intros s s' H;
      first [exact (val_sources _ _ _ _ true _ H) | exact (val_sources _ _ _ _ false _ H)]
    | apply computes_pure_call ].
Qed.

(** ** The builders against their descriptions *)

Lemma computes_bind_ok {A B} (m : M A) (k : A → M B)
    (f : LambdaConfig → A) (g : A → LambdaConfig → result B) :
  computes m (λ self, Ok (f self)) →
  (∀ a, computes (k a) (g a)) →
  (∀ a, reads_sources (g a)) →
  computes (bind m k) (λ self, g (f self) self).
Proof.
  intros Hm Hk Hg.
  apply (computes_equal _ _ _ (computes_bind m k _ g Hm Hk Hg)).
  reflexivity.
Qed.

Lemma segment_getter (get_x : M string) name :
  computes get_x (λ self, val self name true false None) →
  _defaults !! name = Some EmptyString → _validations !! name = None →
  computes get_x (λ self, Ok (segment self name)).
Proof.
  intros H Hd Hv. apply (computes_equal _ _ _ H).
  intros self. apply val_segment; assumption.
Qed.

Lemma get_global_prefix_segment :
  computes get_global_prefix (λ self, Ok (segment self "GLOBAL_PREFIX")).
Proof. apply segment_getter; [apply get_global_prefix_computes | reflexivity..]. Qed.

Lemma get_application_name_segment :
  computes get_application_name (λ self, Ok (segment self "APPLICATION_NAME")).
Proof. apply segment_getter; [apply get_application_name_computes | reflexivity..]. Qed.

Lemma get_environment_segment :
  computes get_environment (λ self, Ok (segment self "ENVIRONMENT")).
Proof. apply segment_getter; [apply get_environment_computes | reflexivity..]. Qed.

Lemma get_stack_name_segment :
  computes get_stack_name (λ self, Ok (segment self "STACK_NAME")).
Proof. apply segment_getter; [apply get_stack_name_computes | reflexivity..]. Qed.

Lemma optional_segments_app l1 l2 :
  optional_segments (l1 ++ l2) = (optional_segments l1 ++ optional_segments l2)%list.
Proof.
  unfold optional_segments. rewrite List.filter_app, List.map_app. reflexivity.
Qed.

Lemma append_segment_computes include (get_x : M string) name chunks :
  computes get_x (λ self, Ok (segment self name)) →
  computes (append_segment include get_x chunks)
    (λ self, Ok (chunks ++ optional_segments [(include, segment self name)])%list).
Proof.
  intros Hg self Hok. unfold append_segment, optional_segments. destruct include; simpl.
  - unfold bind. destruct (Hg self Hok) as (Hr & Hok1 & Hs1).
    destruct (get_x self) as [[x|e] self1]; simpl in Hr, Hok1, Hs1; [|discriminate Hr].
    injection Hr as ->.
    destruct (0 <? Str.len (segment self name))%nat; simpl.
    + destruct (Hg self1 Hok1) as (Hr2 & Hok2 & Hs2).
      destruct (get_x self1) as [[x'|e] self2]; simpl in Hr2, Hok2, Hs2;
        [|discriminate Hr2].
      injection Hr2 as ->. rewrite (segment_sources self1 self name Hs1).
      split; [reflexivity|]. split; [exact Hok2 | exact (eq_trans Hs2 Hs1)].
    + rewrite app_nil_r. auto.
  - rewrite app_nil_r. auto.
Qed.

Lemma append_segment_step include (get_x : M string) name chunks self :
  computes get_x (λ self, Ok (segment self name)) → cache_ok self →
  ∃ self',
    append_segment include get_x chunks self
    = (Ok (chunks ++ optional_segments [(include, segment self name)])%list, self')
    ∧ cache_ok self' ∧ sources self' = sources self.
Proof.
  intros Hg Hok.
  destruct (append_segment_computes include get_x name chunks Hg self Hok)
    as (Hr & Hok' & Hs).
  destruct (append_segment include get_x chunks self) as [r self'].
  simpl in Hr, Hok', Hs. subst r. eauto.
Qed.

Lemma build_legacy_ssm_param_name_computes name gp an en sn :
  computes (build_legacy_ssm_param_name name gp an en sn)
    (λ self, Ok (Str.join "-"
       (optional_segments [(gp, segment self "GLOBAL_PREFIX");
                           (an, segment self "APPLICATION_NAME");
                           (en, segment self "ENVIRONMENT");
                           (sn, segment self "STACK_NAME")]
        ++ ["ssm"; name])%list)).
Proof.
  intros self Hok. unfold build_legacy_ssm_param_name, bind.
  destruct (append_segment_step gp _ _ [] self get_global_prefix_segment Hok)
    as (s1 & -> & Hok1 & Hs1).
  destruct (append_segment_step an _ _
              ([] ++ optional_segments [(gp, segment self "GLOBAL_PREFIX")])%list
              s1 get_application_name_segment Hok1)
    as (s2 & -> & Hok2 & Hs2).
  destruct (append_segment_step en _ _
              (([] ++ optional_segments [(gp, segment self "GLOBAL_PREFIX")])
               ++ optional_segments [(an, segment s1 "APPLICATION_NAME")])%list
              s2 get_environment_segment Hok2)
    as (s3 & -> & Hok3 & Hs3).
  destruct (append_segment_step sn _ _
              ((([] ++ optional_segments [(gp, segment self "GLOBAL_PREFIX")])
                ++ optional_segments [(an, segment s1 "APPLICATION_NAME")])
               ++ optional_segments [(en, segment s2 "ENVIRONMENT")])%list
              s3 get_stack_name_segment Hok3)
    as (s4 & -> & Hok4 & Hs4).
  assert (E1 : sources s1 = sources self) by exact Hs1.
  assert (E2 : sources s2 = sources self) by exact (eq_trans Hs2 E1).
  assert (E3 : sources s3 = sources self) by exact (eq_trans Hs3 E2).
  assert (E4 : sources s4 = sources self) by exact (eq_trans Hs4 E3).
  rewrite (segment_sources s1 self _ E1), (segment_sources s2 self _ E2),
    (segment_sources s3 self _ E3).
  simpl. split; [|split; [exact Hok4 | exact E4]].
  unfold list_append.
  change [(gp, segment self "GLOBAL_PREFIX"); (an, segment self "APPLICATION_NAME");
          (en, segment self "ENVIRONMENT"); (sn, segment self "STACK_NAME")]
    with ([(gp, segment self "GLOBAL_PREFIX")] ++ [(an, segment self "APPLICATION_NAME")]
          ++ [(en, segment self "ENVIRONMENT")] ++ [(sn, segment self "STACK_NAME")])%list.
  rewrite !optional_segments_app, <- !app_assoc. reflexivity.
Qed.

Lemma build_ssm_param_name_computes name gp an en sn :
  computes (build_ssm_param_name name gp an en sn)
    (λ self, Ok (Str.join "/"
       (EmptyString ::
        optional_segments [(gp, segment self "GLOBAL_PREFIX");
                           (an, segment self "APPLICATION_NAME");
                           (en, segment self "ENVIRONMENT");
                           (sn, segment self "STACK_NAME")]
        ++ match name with
           | Some name => ["ssm"; name]
           | None => [EmptyString]
           end)%list)).
Proof.
  intros self Hok. unfold build_ssm_param_name, bind.
  destruct (append_segment_step gp _ _ [EmptyString] self get_global_prefix_segment Hok)
    as (s1 & -> & Hok1 & Hs1).
  destruct (append_segment_step an _ _
              ([EmptyString] ++ optional_segments [(gp, segment self "GLOBAL_PREFIX")])%list
              s1 get_application_name_segment Hok1)
    as (s2 & -> & Hok2 & Hs2).
  destruct (append_segment_step en _ _
              (([EmptyString] ++ optional_segments [(gp, segment self "GLOBAL_PREFIX")])
               ++ optional_segments [(an, segment s1 "APPLICATION_NAME")])%list
              s2 get_environment_segment Hok2)
    as (s3 & -> & Hok3 & Hs3).
  destruct (append_segment_step sn _ _
              ((([EmptyString] ++ optional_segments [(gp, segment self "GLOBAL_PREFIX")])
                ++ optional_segments [(an, segment s1 "APPLICATION_NAME")])
               ++ optional_segments [(en, segment s2 "ENVIRONMENT")])%list
              s3 get_stack_name_segment Hok3)
    as (s4 & -> & Hok4 & Hs4).
  assert (E1 : sources s1 = sources self) by exact Hs1.
  assert (E2 : sources s2 = sources self) by exact (eq_trans Hs2 E1).
  assert (E3 : sources s3 = sources self) by exact (eq_trans Hs3 E2).
  assert (E4 : sources s4 = sources self) by exact (eq_trans Hs4 E3).
  rewrite (segment_sources s1 self _ E1), (segment_sources s2 self _ E2),
    (segment_sources s3 self _ E3).
  cbn [fst snd]. split; [|split; [exact Hok4 | exact E4]].
  unfold list_append.
  change [(gp, segment self "GLOBAL_PREFIX"); (an, segment self "APPLICATION_NAME");
          (en, segment self "ENVIRONMENT"); (sn, segment self "STACK_NAME")]
    with ([(gp, segment self "GLOBAL_PREFIX")] ++ [(an, segment self "APPLICATION_NAME")]
          ++ [(en, segment self "ENVIRONMENT")] ++ [(sn, segment self "STACK_NAME")])%list.
  rewrite !optional_segments_app.
  do 2 f_equal. destruct name as [name|]; rewrite <- !app_assoc; reflexivity.
Qed.

Lemma build_bucket_name_computes name gp an en :
  computes (build_bucket_name name gp an en)
    (λ self, Ok (resolved_bucket_name self name gp an en)).
Proof.
  intros self Hok. unfold build_bucket_name, resolved_bucket_name, bind.
  destruct (append_segment_step gp _ _ [] self get_global_prefix_segment Hok)
    as (s1 & -> & Hok1 & Hs1).
  destruct (append_segment_step an _ _
              ([] ++ optional_segments [(gp, segment self "GLOBAL_PREFIX")])%list
              s1 get_application_name_segment Hok1)
    as (s2 & -> & Hok2 & Hs2).
  destruct (append_segment_step en _ _
              (([] ++ optional_segments [(gp, segment self "GLOBAL_PREFIX")])
               ++ optional_segments [(an, segment s1 "APPLICATION_NAME")])%list
              s2 get_environment_segment Hok2)
    as (s3 & -> & Hok3 & Hs3).
  assert (E1 : sources s1 = sources self) by exact Hs1.
  assert (E2 : sources s2 = sources self) by exact (eq_trans Hs2 E1).
  assert (E3 : sources s3 = sources self) by exact (eq_trans Hs3 E2).
  rewrite (segment_sources s1 self _ E1), (segment_sources s2 self _ E2).
  simpl. split; [|split; [exact Hok3 | exact E3]].
  unfold list_append.
  change [(gp, segment self "GLOBAL_PREFIX"); (an, segment self "APPLICATION_NAME");
          (en, segment self "ENVIRONMENT")]
    with ([(gp, segment self "GLOBAL_PREFIX")] ++ [(an, segment self "APPLICATION_NAME")]
          ++ [(en, segment self "ENVIRONMENT")])%list.
  rewrite !optional_segments_app, <- !app_assoc. reflexivity.
Qed.

Lemma get_log_bucket_name_computes : computes get_log_bucket_name resolved_log_bucket.
Proof.
  apply computes_memo;
    [ intros self v Hok; apply (ok_log_bucket self Hok)
    | apply cache_ok_set_log_bucket | reflexivity
    | apply resolved_log_bucket_sources | ].
  apply (computes_bind_ok (build_bucket_name "logs" true true false) _
           (λ self, resolved_bucket_name self "logs" true true false)
           (λ computed self, val self "LOG_BUCKET_NAME" true false (Some computed))).
  - apply build_bucket_name_computes.
  - intros computed. apply computes_pure_call.
  - intros computed s s' H. exact (val_sources _ _ _ _ false _ H).
Qed.

(** ** Reachable instances *)

Lemma map_result_preserved {A B} (f : A → B) (m : M A) d :
  computes m d → cache_ok_preserved (map_result f m).
Proof.
  intros Hm self Hok. unfold map_result, bind.
  destruct (Hm self Hok) as (_ & Hok' & Hs).
  destruct (m self) as [[a|e] self']; simpl in *; auto.
Qed.

Lemma invoke_preserved m : cache_ok_preserved (invoke m).
Proof.
  destruct m as [g|name gp an en sn|name gp an en sn|name gp an en]; simpl.
  - destruct g; simpl; eapply map_result_preserved;
      eauto using get_application_name_computes, get_debug_mode_computes,
        get_log_level_computes, get_log_path_computes, get_safe_mode_computes,
        get_aws_region_computes, get_fips_mode_computes, get_global_prefix_computes,
        get_environment_computes, get_stack_name_computes,
        get_log_archive_mode_computes, get_log_kms_key_id_computes,
        get_notification_arn_computes, get_log_bucket_name_computes.
  - eapply map_result_preserved, build_legacy_ssm_param_name_computes.
  - eapply map_result_preserved, build_ssm_param_name_computes.
  - eapply map_result_preserved, build_bucket_name_computes.
Qed.

Lemma reachable_cache_ok self : reachable self → cache_ok self.
Proof.
  induction 1 as [name env overrides lambda_overrides|m self _ IH].
  - apply cache_ok_init.
  - apply invoke_preserved, IH.
Qed.

(** * The resolve primitive *)

(** C1. [_get_val] hands back the value of the first source that holds the
    name, in the order: overrides of this caller, global overrides,
    environment, defaults, then the caller's fallback when it is not [None];
    when none holds it, it raises the missing-configuration error that names
    the setting.  [val] starts from that same value, and raises that same
    error.  Resolving AWS_REGION on a new instance over an empty environment
    raises it. *)
Theorem resolve_priority_chain :
  (∀ self name default_override,
     _get_val self name default_override =
     match first_hit (lookups self name ++ [default_override]) with
     | Some v => Ok v
     | None => Raise (MissingConfiguration name)
     end) ∧
  (∀ self name to_lower bool_coerce default_override,
     val self name to_lower bool_coerce default_override =
     match first_hit (lookups self name ++ [default_override]) with
     | Some v => post_process name to_lower bool_coerce v
     | None => Raise (MissingConfiguration name)
     end) ∧
  (∀ script,
     _get_val (__init__ script ∅ None None) "AWS_REGION" None
     = Raise (MissingConfiguration "AWS_REGION") ∧
     val (__init__ script ∅ None None) "AWS_REGION" true false None
     = Raise (MissingConfiguration "AWS_REGION")).
Proof.
  split; [|split].
  - apply _get_val_first_hit.
  - apply val_post_process.
  - intros script. split; [|rewrite val_post_process]; reflexivity.
Qed.

(** * Enumerated domains *)

Lemma validations_table name :
  _validations !! name =
  if bool_decide (name ∈ ["DEBUG_MODE"; "SAFE_MODE"; "FIPS_MODE"; "ENABLE_NOTIFICATIONS"])
  then Some on_off
  else if bool_decide (name = "LOG_ARCHIVE_MODE") then Some ["s3"; "stdout"]
  else None.
Proof.
  unfold _validations. simpl.
  repeat match goal with
  | |- context [<[?k := _]> _ !! name] =>
      destruct (decide (k = name)) as [<-|];
      [rewrite lookup_insert_eq; reflexivity | rewrite lookup_insert_ne by assumption]
  end.
  rewrite lookup_empty.
  rewrite bool_decide_eq_false_2.
  - rewrite bool_decide_eq_false_2; [reflexivity | congruence].
  - rewrite !elem_of_cons, elem_of_nil. intros [?|[?|[?|[?|[]]]]]; congruence.
Qed.

(** C5. For a setting with an enumerated domain (on, off, true, false, yes,
    no for DEBUG_MODE, SAFE_MODE, FIPS_MODE and ENABLE_NOTIFICATIONS; s3 and
    stdout for LOG_ARCHIVE_MODE), [val] raises the invalid-value error, which
    names the setting and lists the domain, when the value found (lower-cased
    first when [to_lower] or [bool_coerce] is set) is outside the domain, and
    hands back a result when it is inside.  For LOG_ARCHIVE_MODE the message
    reads: Unknown LOG_ARCHIVE_MODE value specified; expected values
    ['s3', 'stdout']. *)
Theorem enumerated_domain_checked :
  (∀ name,
     _validations !! name =
     if bool_decide (name ∈ ["DEBUG_MODE"; "SAFE_MODE"; "FIPS_MODE"; "ENABLE_NOTIFICATIONS"])
     then Some ["on"; "off"; "true"; "false"; "yes"; "no"]
     else if bool_decide (name = "LOG_ARCHIVE_MODE") then Some ["s3"; "stdout"]
     else None) ∧
  (∀ self name domain to_lower bool_coerce default_override value,
     _validations !! name = Some domain →
     _get_val self name default_override = Ok value →
     let value' := if to_lower || bool_coerce then Str.lower value else value in
     (value' ∉ domain →
      val self name to_lower bool_coerce default_override
      = Raise (InvalidConfigurationValue name domain)) ∧
     (value' ∈ domain →
      ∃ r, val self name to_lower bool_coerce default_override = Ok r)) ∧
  InvalidConfigurationValue "LOG_ARCHIVE_MODE" ["s3"; "stdout"]
  = ValueError
      "Unknown LOG_ARCHIVE_MODE value specified; expected values ['s3', 'stdout']".
Proof.
  split; [exact validations_table|]. split; [|reflexivity].
  intros self name domain to_lower bool_coerce default_override value Hd Hg value'.
  unfold val, _validate_val. rewrite Hg, Hd. fold value'.
  split; intros H.
  - rewrite bool_decide_eq_false_2 by exact H. reflexivity.
  - rewrite bool_decide_eq_true_2 by exact H. eauto.
Qed.

Lemma enumerated_domain_checked_witness :
  let self := __init__ "test" {[ "DEBUG_MODE" := "nonsense" ]} None None in
  val self "DEBUG_MODE" false true None
  = Raise (InvalidConfigurationValue "DEBUG_MODE" on_off).
Proof.
  intros self.
  refine (proj1 (proj1 (proj2 enumerated_domain_checked) self "DEBUG_MODE" on_off
                   false true None "nonsense" _ _) _).
  - reflexivity.
  - reflexivity.
  - vm_compute. intros H. repeat (apply elem_of_cons in H as [H|H]; [discriminate H|]).
    apply elem_of_nil in H. exact H.
Defined.

(** * Boolean coercion *)

(** C6. Under [bool_coerce], once the lookup has found a value and the
    enumerated-domain check (when the setting has one) has let its lower-cased
    form through, [val] hands back the boolean that is true exactly when that
    lower-cased form is one of on, true, yes; no other outcome is possible, so
    the coercion raises nothing. *)
Theorem bool_coerce_result self name to_lower default_override value :
  _get_val self name default_override = Ok value →
  (∀ domain, _validations !! name = Some domain → Str.lower value ∈ domain) →
  val self name to_lower true default_override
  = Ok (bool_decide (Str.lower value ∈ ["on"; "true"; "yes"])).
Proof.
  intros Hg Hv. unfold val, _validate_val. rewrite Hg.
  replace (to_lower || true) with true by (destruct to_lower; reflexivity).
  destruct (_validations !! name) as [domain|] eqn:E; [|reflexivity].
  rewrite bool_decide_eq_true_2 by (apply Hv; reflexivity). reflexivity.
Qed.

Lemma bool_coerce_result_witness :
  val (__init__ "test" {[ "DEBUG_MODE" := "ON" ]} None None) "DEBUG_MODE" false true None
  = Ok true.
Proof.
  refine (bool_coerce_result _ "DEBUG_MODE" false None "ON" _ _).
  - reflexivity.
  - intros domain H. vm_compute in H. injection H as <-.
    vm_compute. apply elem_of_cons. left. reflexivity.
Defined.

(** * Identifier builders *)

Lemma segments_resolve self :
  cache_ok self →
  fst (get_global_prefix self) = Ok (segment self "GLOBAL_PREFIX") ∧
  fst (get_application_name self) = Ok (segment self "APPLICATION_NAME") ∧
  fst (get_environment self) = Ok (segment self "ENVIRONMENT") ∧
  fst (get_stack_name self) = Ok (segment self "STACK_NAME").
Proof.
  intros Hok. repeat split.
  - apply (get_global_prefix_segment self Hok).
  - apply (get_application_name_segment self Hok).
  - apply (get_environment_segment self Hok).
  - apply (get_stack_name_segment self Hok).
Qed.

Lemma legacy_join p a e k gp an en sn name :
  Str.join "-" (optional_segments [(gp, p); (an, a); (en, e); (sn, k)] ++ ["ssm"; name])%list
  = legacy_form p a e k gp an en sn name.
Proof.
  unfold legacy_form. split_conditions;
    cbn [map app Str.join]; rewrite ?string_app_assoc; reflexivity.
Qed.

Lemma hierarchical_join p a e k gp an en sn name :
  Str.join "/"
    (EmptyString :: optional_segments [(gp, p); (an, a); (en, e); (sn, k)]
     ++ match name with Some name => ["ssm"; name] | None => [EmptyString] end)%list
  = hierarchical_form p a e k gp an en sn name.
Proof.
  unfold hierarchical_form. destruct name as [name|]; split_conditions;
    cbn [map app Str.join]; rewrite ?string_app_assoc; reflexivity.
Qed.

Lemma bucket_join p a e gp an en name :
  Str.join "-" (optional_segments [(gp, p); (an, a); (en, e)] ++ [name])%list
  = bucket_form p a e gp an en name.
Proof.
  unfold bucket_form. split_conditions;
    cbn [map app Str.join]; rewrite ?string_app_assoc; reflexivity.
Qed.

(** C2, as the claim states it, fails: on an instance whose prefix,
    application name, environment and stack name resolve to test, myappname,
    dev and stack-a, with all four flags set, the legacy name contains the
    environment segment. *)
Lemma legacy_all_included_counterexample :
  let self := __init__ "test" naming_env None None in
  (fst (get_global_prefix self) = Ok "test" ∧
   fst (get_application_name self) = Ok "myappname" ∧
   fst (get_environment self) = Ok "dev" ∧
   fst (get_stack_name self) = Ok "stack-a") ∧
  fst (build_legacy_ssm_param_name "param1" true true true true self)
  = Ok "test-myappname-dev-stack-a-ssm-param1" ∧
  fst (build_legacy_ssm_param_name "param1" true true true true self)
  ≠ Ok "test-myappname-stack-a-ssm-param1".
Proof.
  vm_compute. repeat split. intros H. discriminate H.
Qed.

(** C2, amended.  On every reachable instance the four segment getters hand
    back strings, and for every name and flags the legacy name is
    [{prefix-}{app-}{env-}{stack-}ssm-name] over them: no separator in front or
    behind, the marker ssm before the name.  With test, myappname, dev and
    stack-a and all four flags set, the name param1 gives
    test-myappname-dev-stack-a-ssm-param1; with the environment flag off it
    gives test-myappname-stack-a-ssm-param1; with all flags off it gives
    ssm-param1. *)
Theorem legacy_name_form self :
  reachable self →
  ∃ prefix app env stack,
    (fst (get_global_prefix self) = Ok prefix ∧
     fst (get_application_name self) = Ok app ∧
     fst (get_environment self) = Ok env ∧
     fst (get_stack_name self) = Ok stack) ∧
    (∀ name gp an en sn,
       fst (build_legacy_ssm_param_name name gp an en sn self)
       = Ok (legacy_form prefix app env stack gp an en sn name)) ∧
    (prefix = "test" → app = "myappname" → env = "dev" → stack = "stack-a" →
     fst (build_legacy_ssm_param_name "param1" true true true true self)
     = Ok "test-myappname-dev-stack-a-ssm-param1" ∧
     fst (build_legacy_ssm_param_name "param1" true true false true self)
     = Ok "test-myappname-stack-a-ssm-param1") ∧
    fst (build_legacy_ssm_param_name "param1" false false false false self)
    = Ok "ssm-param1".
Proof.
  intros Hr. pose proof (reachable_cache_ok self Hr) as Hok.
  exists (segment self "GLOBAL_PREFIX"), (segment self "APPLICATION_NAME"),
    (segment self "ENVIRONMENT"), (segment self "STACK_NAME").
  assert (Hb : ∀ name gp an en sn,
             fst (build_legacy_ssm_param_name name gp an en sn self)
             = Ok (legacy_form (segment self "GLOBAL_PREFIX")
                     (segment self "APPLICATION_NAME") (segment self "ENVIRONMENT")
                     (segment self "STACK_NAME") gp an en sn name)).
  { intros name gp an en sn.
    destruct (build_legacy_ssm_param_name_computes name gp an en sn self Hok) as (-> & _).
    rewrite legacy_join. reflexivity. }
  split; [exact (segments_resolve self Hok)|]. split; [exact Hb|]. split.
  - intros E1 E2 E3 E4. rewrite !Hb, E1, E2, E3, E4. split; reflexivity.
  - rewrite Hb. reflexivity.
Qed.

Lemma legacy_name_form_witness :
  ∃ prefix app env stack,
    (fst (get_global_prefix (__init__ "test" naming_env None None)) = Ok prefix ∧
     fst (get_application_name (__init__ "test" naming_env None None)) = Ok app ∧
     fst (get_environment (__init__ "test" naming_env None None)) = Ok env ∧
     fst (get_stack_name (__init__ "test" naming_env None None)) = Ok stack) ∧
    ∀ name gp an en sn,
      fst (build_legacy_ssm_param_name name gp an en sn
             (__init__ "test" naming_env None None))
      = Ok (legacy_form prefix app env stack gp an en sn name).
Proof.
  destruct (legacy_name_form (__init__ "test" naming_env None None)
              (reach_init "test" naming_env None None))
    as (prefix & app & env & stack & H1 & H2 & _).
  exists prefix, app, env, stack. split; [exact H1 | exact H2].
Defined.

(** C3. On every reachable instance the four segment getters hand back
    strings, and for every flags the hierarchical name is
    [/{prefix/}{app/}{env/}{stack/}ssm/name] over them when a name is given
    and [/{prefix/}{app/}{env/}{stack/}] when it is [None].  With test,
    myappname, dev and stack-a and all four flags set, param1 gives
    /test/myappname/dev/stack-a/ssm/param1 and no name gives
    /test/myappname/dev/stack-a/; with all flags off, param8 gives
    /ssm/param8. *)
Theorem hierarchical_name_form self :
  reachable self →
  ∃ prefix app env stack,
    (fst (get_global_prefix self) = Ok prefix ∧
     fst (get_application_name self) = Ok app ∧
     fst (get_environment self) = Ok env ∧
     fst (get_stack_name self) = Ok stack) ∧
    (∀ name gp an en sn,
       fst (build_ssm_param_name name gp an en sn self)
       = Ok (hierarchical_form prefix app env stack gp an en sn name)) ∧
    (prefix = "test" → app = "myappname" → env = "dev" → stack = "stack-a" →
     fst (build_ssm_param_name (Some "param1") true true true true self)
     = Ok "/test/myappname/dev/stack-a/ssm/param1" ∧
     fst (build_ssm_param_name None true true true true self)
     = Ok "/test/myappname/dev/stack-a/") ∧
    fst (build_ssm_param_name (Some "param8") false false false false self)
    = Ok "/ssm/param8".
Proof.
  intros Hr. pose proof (reachable_cache_ok self Hr) as Hok.
  exists (segment self "GLOBAL_PREFIX"), (segment self "APPLICATION_NAME"),
    (segment self "ENVIRONMENT"), (segment self "STACK_NAME").
  assert (Hb : ∀ name gp an en sn,
             fst (build_ssm_param_name name gp an en sn self)
             = Ok (hierarchical_form (segment self "GLOBAL_PREFIX")
                     (segment self "APPLICATION_NAME") (segment self "ENVIRONMENT")
                     (segment self "STACK_NAME") gp an en sn name)).
  { intros name gp an en sn.
    destruct (build_ssm_param_name_computes name gp an en sn self Hok) as (-> & _).
    rewrite hierarchical_join. reflexivity. }
  split; [exact (segments_resolve self Hok)|]. split; [exact Hb|]. split.
  - intros E1 E2 E3 E4. rewrite !Hb, E1, E2, E3, E4. split; reflexivity.
  - rewrite Hb. reflexivity.
Qed.

Lemma hierarchical_name_form_witness :
  fst (build_ssm_param_name (Some "param1") true true true true
         (__init__ "test" naming_env None None))
  = Ok "/test/myappname/dev/stack-a/ssm/param1" ∧
  fst (build_ssm_param_name None true true true true
         (__init__ "test" naming_env None None))
  = Ok "/test/myappname/dev/stack-a/".
Proof.
  destruct (hierarchical_name_form (__init__ "test" naming_env None None)
              (reach_init "test" naming_env None None))
    as (prefix & app & env & stack & (H1 & H2 & H3 & H4) & _ & Hex & _).
  apply Hex.
  - vm_compute in H1. injection H1 as <-. reflexivity.
  - vm_compute in H2. injection H2 as <-. reflexivity.
  - vm_compute in H3. injection H3 as <-. reflexivity.
  - vm_compute in H4. injection H4 as <-. reflexivity.
Defined.

Lemma optional_segments_nonempty candidates :
  Forall (λ x, x ≠ EmptyString) (optional_segments candidates).
Proof.
  unfold optional_segments.
  induction candidates as [|[include x] rest IH]; cbn [List.filter map fst snd].
  - constructor.
  - destruct include; cbn [andb]; [|exact IH].
    destruct (0 <? Str.len x)%nat eqn:E; cbn [map snd]; [|exact IH].
    constructor; [|exact IH].
    intros ->. discriminate E.
Qed.

Lemma optional_segments_sublist candidates :
  sublist (optional_segments candidates) (map snd candidates).
Proof.
  unfold optional_segments.
  induction candidates as [|c rest IH]; cbn [List.filter map].
  - constructor.
  - destruct (fst c && (0 <? Str.len (snd c))%nat); cbn [map].
    + apply sublist_skip, IH.
    + apply sublist_cons, IH.
Qed.

(** C8. On every reachable instance each builder joins, in the order prefix,
    application name, environment, stack name (the bucket name has no stack
    name), exactly those optional segments whose flag is set and whose value
    is not the empty string, followed by its fixed part; the hierarchical name
    alone starts with an empty segment.  The segments joined are never empty,
    keep the order of the candidates, and a candidate with the empty string is
    dropped whatever its flag. *)
Theorem empty_segments_omitted self :
  reachable self →
  ∃ prefix app env stack,
    (fst (get_global_prefix self) = Ok prefix ∧
     fst (get_application_name self) = Ok app ∧
     fst (get_environment self) = Ok env ∧
     fst (get_stack_name self) = Ok stack) ∧
    (∀ name gp an en sn,
       fst (build_legacy_ssm_param_name name gp an en sn self)
       = Ok (Str.join "-"
               (optional_segments [(gp, prefix); (an, app); (en, env); (sn, stack)]
                ++ ["ssm"; name])%list)) ∧
    (∀ name gp an en sn,
       fst (build_ssm_param_name name gp an en sn self)
       = Ok (Str.join "/"
               (EmptyString ::
                optional_segments [(gp, prefix); (an, app); (en, env); (sn, stack)]
                ++ match name with
                   | Some name => ["ssm"; name]
                   | None => [EmptyString]
                   end)%list)) ∧
    (∀ name gp an en,
       fst (build_bucket_name name gp an en self)
       = Ok (Str.join "-"
               (optional_segments [(gp, prefix); (an, app); (en, env)] ++ [name])%list)) ∧
    (∀ candidates,
       Forall (λ x, x ≠ EmptyString) (optional_segments candidates) ∧
       sublist (optional_segments candidates) (map snd candidates) ∧
       ∀ include,
         optional_segments ((include, EmptyString) :: candidates)
         = optional_segments candidates).
Proof.
  intros Hr. pose proof (reachable_cache_ok self Hr) as Hok.
  exists (segment self "GLOBAL_PREFIX"), (segment self "APPLICATION_NAME"),
    (segment self "ENVIRONMENT"), (segment self "STACK_NAME").
  split; [exact (segments_resolve self Hok)|]. repeat split.
  - intros name gp an en sn.
    apply (build_legacy_ssm_param_name_computes name gp an en sn self Hok).
  - intros name gp an en sn.
    apply (build_ssm_param_name_computes name gp an en sn self Hok).
  - intros name gp an en.
    apply (build_bucket_name_computes name gp an en self Hok).
  - apply optional_segments_nonempty.
  - apply optional_segments_sublist.
  - intros include. destruct include; reflexivity.
Qed.

Lemma empty_segments_omitted_witness :
  let self := __init__ "test" {[ "APPLICATION_NAME" := "myappname" ]} None None in
  fst (build_legacy_ssm_param_name "param1" true true true true self)
  = Ok "myappname-ssm-param1" ∧
  fst (build_ssm_param_name None true true true true self) = Ok "/myappname/" ∧
  fst (build_bucket_name "logs" true true true self) = Ok "myappname-logs".
Proof.
  intros self.
  destruct (empty_segments_omitted self (reach_init "test" _ None None))
    as (prefix & app & env & stack & (H1 & H2 & H3 & H4) & Hl & Hs & Hb & _).
  vm_compute in H1. injection H1 as <-.
  vm_compute in H2. injection H2 as <-.
  vm_compute in H3. injection H3 as <-.
  vm_compute in H4. injection H4 as <-.
  rewrite Hl, Hs, Hb. repeat split.
Defined.

(** * Compliance mode *)





(** ** Reading UTF-8 *)






(** ** The pattern of the region *)




(** The [$] of the pattern lets one line feed through at the very end, and
    [\d] takes the decimal digits of every script and nothing else. *)
Lemma in_gov_cloud_examples :
  in_gov_cloud "us-gov-west-1" = true ∧ in_gov_cloud "us-gov-east-1" = true ∧
  in_gov_cloud "us-east-1" = false ∧ in_gov_cloud "us-gov-west-" = false ∧
  in_gov_cloud "us-gov-west-1a" = false ∧ in_gov_cloud "eu-us-gov-west-1" = false ∧
  in_gov_cloud "us-gov-west-abc" = false ∧
  in_gov_cloud ("us-gov-west-" ++ arabic_indic_one) = true ∧
  in_gov_cloud ("us-gov-west-1" ++ Str.newline) = true.
Proof. vm_compute. repeat split. Qed.

(** ** Regions written in ASCII *)








Lemma val_unset_uses_fallback self name to_lower bool_coerce fallback :
  ¬ explicitly_set self name →
  val self name to_lower bool_coerce (Some fallback)
  = post_process name to_lower bool_coerce fallback.
Proof.
  intros H. rewrite val_post_process, first_hit_app.
  unfold explicitly_set in H. apply eq_None_not_Some in H. rewrite H. reflexivity.
Qed.

Lemma val_set_ignores_fallback self name to_lower bool_coerce default_override v :
  first_hit (lookups self name) = Some v →
  val self name to_lower bool_coerce default_override
  = post_process name to_lower bool_coerce v.
Proof.
  intros H. rewrite val_post_process, first_hit_app, H. reflexivity.
Qed.



(** C10. On a reachable instance where none of the four mappings holds
    AWS_REGION, [get_fips_mode] raises the missing-configuration error for
    AWS_REGION, whatever FIPS_MODE is set to: the region is resolved first. *)
Theorem fips_mode_needs_region self :
  reachable self →
  ¬ explicitly_set self "AWS_REGION" →
  fst (get_fips_mode self) = Raise (MissingConfiguration "AWS_REGION").
Proof.
  intros Hr Hunset. pose proof (reachable_cache_ok self Hr) as Hok.
  destruct (get_fips_mode_computes self Hok) as (-> & _).
  unfold resolved_fips_mode, resolved_aws_region.
  rewrite val_post_process, first_hit_app.
  unfold explicitly_set in Hunset. apply eq_None_not_Some in Hunset.
  rewrite Hunset. reflexivity.
Qed.

Lemma fips_mode_needs_region_witness :
  fst (get_fips_mode (__init__ "test" {[ "FIPS_MODE" := "on" ]} None None))
  = Raise (MissingConfiguration "AWS_REGION").
Proof.
  apply fips_mode_needs_region.
  - apply reach_init.
  - vm_compute. intros [v H]. discriminate H.
Defined.

(** * The archive key *)

Lemma resolved_log_archive_mode_of self raw :
  first_hit (lookups self "LOG_ARCHIVE_MODE") = Some raw →
  resolved_log_archive_mode self
  = if bool_decide (Str.lower raw ∈ ["s3"; "stdout"]) then Ok (Str.lower raw)
    else Raise (InvalidConfigurationValue "LOG_ARCHIVE_MODE" ["s3"; "stdout"]).
Proof.
  intros H. unfold resolved_log_archive_mode.
  rewrite (val_set_ignores_fallback _ _ _ _ _ raw H). reflexivity.
Qed.

Lemma archive_mode_cases mode :
  mode ∈ ["s3"; "stdout"] → mode = "s3" ∨ mode = "stdout".
Proof.
  intros E. apply elem_of_cons in E as [E|E]; [left; exact E|].
  apply elem_of_cons in E as [E|E]; [right; exact E|].
  apply elem_of_nil in E. destruct E.
Qed.

(** C7, as the claim states it, fails: with the mappings of
    test_log_kms_key_id__bad_log_mode, where LOG_ARCHIVE_MODE is local, a
    value other than s3, [get_log_kms_key_id] raises the invalid-value error
    of LOG_ARCHIVE_MODE and not the invalid-state error. *)
Lemma log_kms_key_id_local_counterexample :
  let self :=
    __init__ "test"
      (list_to_map [("RUN_MODE", "aws"); ("LOG_ARCHIVE_MODE", "local");
                    ("LOG_KMS_KEY_ID", "testvalue")])
      None None in
  first_hit (lookups self "LOG_ARCHIVE_MODE") = Some "local" ∧
  "local" ≠ "s3" ∧
  fst (get_log_kms_key_id self)
  = Raise (InvalidConfigurationValue "LOG_ARCHIVE_MODE" ["s3"; "stdout"]) ∧
  fst (get_log_kms_key_id self) ≠ Raise InvalidState.
Proof.
  vm_compute. repeat split; intros H; discriminate H.
Qed.

(** C7, amended.  On a reachable instance one of the mappings holds
    LOG_ARCHIVE_MODE, the default stdout standing last, and with [raw] the
    value of the first that does: [get_log_kms_key_id] raises the
    invalid-state error exactly when [raw], lower-cased, is stdout; when it
    is neither s3 nor stdout, the archive-mode getter and with it
    [get_log_kms_key_id] raise the invalid-value error of LOG_ARCHIVE_MODE;
    when it is s3 and one of the mappings holds LOG_KMS_KEY_ID,
    [get_log_kms_key_id] hands back the value of the first mapping that holds
    it.  So whenever the archive-mode getter hands back a mode other than s3,
    that mode is stdout and [get_log_kms_key_id] raises the invalid-state
    error. *)
Theorem log_kms_key_id_guard self :
  reachable self →
  is_Some (first_hit (lookups self "LOG_ARCHIVE_MODE")) ∧
  (∀ raw, first_hit (lookups self "LOG_ARCHIVE_MODE") = Some raw →
     (fst (get_log_kms_key_id self) = Raise InvalidState ↔ Str.lower raw = "stdout") ∧
     (Str.lower raw ≠ "s3" → Str.lower raw ≠ "stdout" →
        fst (get_log_archive_mode self)
        = Raise (InvalidConfigurationValue "LOG_ARCHIVE_MODE" ["s3"; "stdout"]) ∧
        fst (get_log_kms_key_id self)
        = Raise (InvalidConfigurationValue "LOG_ARCHIVE_MODE" ["s3"; "stdout"])) ∧
     (Str.lower raw = "s3" →
        fst (get_log_archive_mode self) = Ok "s3" ∧
        ∀ key, first_hit (lookups self "LOG_KMS_KEY_ID") = Some key →
          fst (get_log_kms_key_id self) = Ok key)) ∧
  (∀ mode, fst (get_log_archive_mode self) = Ok mode → mode ≠ "s3" →
     mode = "stdout" ∧ fst (get_log_kms_key_id self) = Raise InvalidState) ∧
  (∀ key, fst (get_log_archive_mode self) = Ok "s3" →
     first_hit (lookups self "LOG_KMS_KEY_ID") = Some key →
     fst (get_log_kms_key_id self) = Ok key).
Proof.
  intros Hr. pose proof (reachable_cache_ok self Hr) as Hok.
  destruct (get_log_kms_key_id_computes self Hok) as (Hk & _).
  destruct (get_log_archive_mode_computes self Hok) as (Hm & _).
  unfold resolved_log_kms_key_id in Hk.
  destruct (first_hit_default self "LOG_ARCHIVE_MODE" "stdout" eq_refl) as [raw0 Hraw0].
  split; [eauto|]. split; [|split].
  - intros raw Hraw. rewrite (resolved_log_archive_mode_of self raw Hraw) in Hk, Hm.
    destruct (bool_decide (Str.lower raw ∈ ["s3"; "stdout"])) eqn:E.
    + apply bool_decide_eq_true_1, archive_mode_cases in E as [E|E];
        rewrite E in Hk, Hm |- *; cbn [String.eqb Ascii.eqb Bool.eqb negb andb] in Hk.
      * split; [|split].
        -- rewrite Hk, val_post_process, first_hit_app.
           split; [|intros H; discriminate H].
           destruct (first_hit (lookups self "LOG_KMS_KEY_ID")) as [key|]; intros H;
             [ change (post_process "LOG_KMS_KEY_ID" false false key) with (Ok key) in H;
               discriminate H
             | vm_compute in H; discriminate H ].
        -- intros H. destruct H. reflexivity.
        -- intros _. split; [exact Hm|]. intros key Hkey.
           rewrite Hk, (val_set_ignores_fallback _ _ _ _ _ key Hkey). reflexivity.
      * split; [|split].
        -- split; [reflexivity | intros _; exact Hk].
        -- intros _ H. destruct H. reflexivity.
        -- intros H. discriminate H.
    + apply bool_decide_eq_false_1 in E. split; [|split].
      * rewrite Hk. split; [intros H; vm_compute in H; discriminate H|].
        intros H. destruct E. rewrite H.
        apply elem_of_cons. right. apply elem_of_cons. left. reflexivity.
      * intros _ _. split; [exact Hm | exact Hk].
      * intros H. destruct E. rewrite H. apply elem_of_cons. left. reflexivity.
  - intros mode E Hne.
    rewrite (resolved_log_archive_mode_of self raw0 Hraw0) in Hk, Hm.
    rewrite E in Hm.
    destruct (bool_decide (Str.lower raw0 ∈ ["s3"; "stdout"])) eqn:D;
      [|discriminate Hm].
    injection Hm as ->.
    apply bool_decide_eq_true_1, archive_mode_cases in D as [D|D];
      [destruct (Hne D)|].
    split; [exact D|]. rewrite D in Hk. exact Hk.
  - intros key E Hkey. rewrite <- Hm, E in Hk. cbn [String.eqb negb] in Hk.
    rewrite Hk. rewrite (val_set_ignores_fallback _ _ _ _ _ key Hkey). reflexivity.
Qed.

Lemma log_kms_key_id_guard_witness :
  fst (get_log_kms_key_id
         (__init__ "test" {[ "LOG_ARCHIVE_MODE" := "stdout" ]} None None))
  = Raise InvalidState ∧
  fst (get_log_kms_key_id
         (__init__ "test" {[ "LOG_ARCHIVE_MODE" := "local" ]} None None))
  = Raise (InvalidConfigurationValue "LOG_ARCHIVE_MODE" ["s3"; "stdout"]) ∧
  fst (get_log_kms_key_id
         (__init__ "test"
            (<[ "LOG_KMS_KEY_ID" := "key-1" ]> {[ "LOG_ARCHIVE_MODE" := "S3" ]})
            None None))
  = Ok "key-1".
Proof.
  assert (Hs3 : "local" ≠ "s3") by (intros H; discriminate H).
  assert (Hstdout : "local" ≠ "stdout") by (intros H; discriminate H).
  split; [|split].
  - refine (proj2 (proj1 (proj1 (proj2
      (log_kms_key_id_guard
         (__init__ "test" {[ "LOG_ARCHIVE_MODE" := "stdout" ]} None None)
         (reach_init _ _ _ _))) "stdout" _)) _); reflexivity.
  - refine (proj2 (proj1 (proj2 (proj1 (proj2
      (log_kms_key_id_guard
         (__init__ "test" {[ "LOG_ARCHIVE_MODE" := "local" ]} None None)
         (reach_init _ _ _ _))) "local" _)) Hs3 Hstdout)).
    reflexivity.
  - refine (proj2 (proj2 (proj2
      (log_kms_key_id_guard
         (__init__ "test"
            (<[ "LOG_KMS_KEY_ID" := "key-1" ]> {[ "LOG_ARCHIVE_MODE" := "S3" ]})
            None None)
         (reach_init _ _ _ _)))) "key-1" _ _); reflexivity.
Defined.

(** * Memoization *)

Lemma memo_hit {A} (slot : LambdaConfig → option A) assign compute self v :
  slot self = Some v → memo slot assign compute self = (Ok v, self).
Proof. intros H. unfold memo. rewrite H. reflexivity. Qed.

Lemma memo_fills {A} (slot : LambdaConfig → option A) assign compute self v :
  (∀ w s, slot (assign w s) = Some w) →
  fst (memo slot assign compute self) = Ok v →
  slot (snd (memo slot assign compute self)) = Some v.
Proof.
  intros Hassign. unfold memo. destruct (slot self) as [w|] eqn:E; simpl.
  - intros [= ->]. exact E.
  - destruct (compute self) as [[w|e] self']; simpl.
    + intros [= ->]. apply Hassign.
    + intros H. discriminate H.
Qed.

Lemma map_result_memo_hit {A} (f : A → pyval) slot assign compute self v :
  f <$> slot self = Some v →
  map_result f (memo slot assign compute) self = (Ok v, self).
Proof.
  intros H. unfold map_result, bind.
  destruct (slot self) as [w|] eqn:E; [|discriminate H].
  injection H as <-. rewrite (memo_hit slot assign compute self w E). reflexivity.
Qed.

Lemma map_result_memo_fills {A} (f : A → pyval) slot assign compute self v :
  (∀ w s, slot (assign w s) = Some w) →
  fst (map_result f (memo slot assign compute) self) = Ok v →
  f <$> slot (snd (map_result f (memo slot assign compute) self)) = Some v.
Proof.
  intros Hassign. unfold map_result, bind.
  pose proof (memo_fills slot assign compute self) as Hm.
  destruct (memo slot assign compute self) as [[w|e] self']; simpl in *.
  - intros [= <-]. rewrite (Hm w Hassign eq_refl). reflexivity.
  - intros H. discriminate H.
Qed.

Lemma call_getter_hit g self v :
  slot_of g self = Some v → call_getter g self = (Ok v, self).
Proof. destruct g; apply map_result_memo_hit. Qed.

Lemma call_getter_fills g self v :
  fst (call_getter g self) = Ok v → slot_of g (snd (call_getter g self)) = Some v.
Proof. destruct g; apply map_result_memo_fills; reflexivity. Qed.

(** C9. Every derived getter is memoized on the instance: once a call has
    handed back a value, a second call on the instance hands back the same
    value and assigns nothing, and so does a call after the environment and
    both override mappings have been replaced by any others. *)
Theorem getters_memoized g self v :
  fst (call_getter g self) = Ok v →
  let self' := snd (call_getter g self) in
  call_getter g self' = (Ok v, self') ∧
  ∀ env overrides lambda_overrides,
    call_getter g (with_sources env overrides lambda_overrides self')
    = (Ok v, with_sources env overrides lambda_overrides self').
Proof.
  intros H self'. pose proof (call_getter_fills g self v H) as Hslot.
  fold self' in Hslot. split.
  - apply call_getter_hit, Hslot.
  - intros env overrides lambda_overrides. apply call_getter_hit.
    destruct g; exact Hslot.
Qed.

Lemma getters_memoized_witness :
  let self := __init__ "test" {[ "APPLICATION_NAME" := "First" ]} None None in
  let self' := snd (call_getter GetApplicationName self) in
  fst (call_getter GetApplicationName self') = Ok (PStr "first") ∧
  fst (call_getter GetApplicationName
         (with_sources {[ "APPLICATION_NAME" := "second" ]} ∅ ∅ self'))
  = Ok (PStr "first").
Proof.
  intros self self'.
  assert (H : fst (call_getter GetApplicationName self) = Ok (PStr "first"))
    by reflexivity.
  destruct (getters_memoized GetApplicationName self (PStr "first") H) as [H1 H2].
  fold self' in H1, H2. split.
  - rewrite H1. reflexivity.
  - rewrite H2. reflexivity.
Defined.

(** * Further properties of the resolver *)

(** ** Lower-casing *)

Lemma lower_char_idempotent c : Str.lower_char (Str.lower_char c) = Str.lower_char c.
Proof. destruct c as [[] [] [] [] [] [] [] []]; reflexivity. Qed.

Lemma lower_idempotent s : Str.lower (Str.lower s) = Str.lower s.
Proof.
  induction s as [|c s IH]; [reflexivity|].
  simpl. rewrite lower_char_idempotent, IH. reflexivity.
Qed.

Lemma lower_app a b : Str.lower (a ++ b) = Str.lower a ++ Str.lower b.
Proof.
  induction a as [|c a IH]; [reflexivity|].
  change (Str.lower (String c (a ++ b))
          = String (Str.lower_char c) (Str.lower a ++ Str.lower b)).
  simpl. rewrite IH. reflexivity.
Qed.

Lemma post_process_lower name v r :
  post_process name true false v = Ok r → Str.lower r = r.
Proof.
  unfold post_process. cbn [orb].
  destruct (_validations !! name) as [domain|].
  - destruct (bool_decide _); [|discriminate].
    intros [= <-]. apply lower_idempotent.
  - intros [= <-]. apply lower_idempotent.
Qed.

Lemma val_lower self name default_override r :
  val self name true false default_override = Ok r → Str.lower r = r.
Proof.
  rewrite val_post_process.
  destruct (first_hit _) as [v|]; [apply post_process_lower | discriminate].
Qed.

(** ** Whole calls against their descriptions *)

Lemma computes_map_result {A B} (f : A → B) (m : M A) d :
  computes m d → computes (map_result f m) (λ self, map_ok f (d self)).
Proof.
  intros Hm self Hok. unfold map_result, bind.
  destruct (Hm self Hok) as (Hr & Hok' & Hs).
  destruct (m self) as [[a|e] self']; simpl in *; rewrite <- Hr; auto.
Qed.

Lemma call_getter_computes g : computes (call_getter g) (resolved g).
Proof.
  destruct g; simpl; apply computes_map_result.
  - apply get_application_name_computes.
  - apply get_debug_mode_computes.
  - apply get_log_level_computes.
  - apply get_log_path_computes.
  - apply get_safe_mode_computes.
  - apply get_aws_region_computes.
  - apply get_fips_mode_computes.
  - apply get_global_prefix_computes.
  - apply get_environment_computes.
  - apply get_stack_name_computes.
  - apply get_log_archive_mode_computes.
  - apply get_log_kms_key_id_computes.
  - apply get_notification_arn_computes.
  - apply get_log_bucket_name_computes.
Qed.

Lemma resolved_reads_sources g : reads_sources (resolved g).
Proof.
  intros s s' H.
  destruct g; simpl; f_equal;
    first [ exact (val_sources _ _ _ _ true _ H)
          | exact (val_sources _ _ _ _ false _ H)
          | apply resolved_log_level_sources, H
          | apply resolved_fips_mode_sources, H
          | apply resolved_log_kms_key_id_sources, H
          | apply resolved_log_bucket_sources, H ].
Qed.

Lemma sources_init self :
  sources (__init__ (_script_name self) (_env self) (Some (_overrides self))
             (Some (_lambda_overrides self)))
  = sources self.
Proof. reflexivity. Qed.

Lemma computes_stable {A} (m : M A) d :
  computes m d → reads_sources d →
  ∀ s s', cache_ok s → cache_ok s' → sources s = sources s' → fst (m s) = fst (m s').
Proof.
  intros Hm Hd s s' Hok Hok' Hs.
  destruct (Hm s Hok) as (-> & _). destruct (Hm s' Hok') as (-> & _).
  apply Hd, Hs.
Qed.

Lemma invoke_stable m s s' :
  cache_ok s → cache_ok s' → sources s = sources s' →
  fst (invoke m s) = fst (invoke m s').
Proof.
  destruct m as [g|name gp an en sn|name gp an en sn|name gp an en]; simpl.
  - apply (computes_stable _ _ (call_getter_computes g) (resolved_reads_sources g)).
  - apply (computes_stable _ _
             (computes_map_result PStr _ _
                (build_legacy_ssm_param_name_computes name gp an en sn))).
    intros x y H. cbn beta. rewrite !(segment_sources x y _ H). reflexivity.
  - apply (computes_stable _ _
             (computes_map_result PStr _ _
                (build_ssm_param_name_computes name gp an en sn))).
    intros x y H. cbn beta. rewrite !(segment_sources x y _ H). reflexivity.
  - apply (computes_stable _ _
             (computes_map_result PStr _ _
                (build_bucket_name_computes name gp an en))).
    intros x y H. cbn beta. unfold resolved_bucket_name.
    rewrite !(segment_sources x y _ H). reflexivity.
Qed.

(** X1. On a reachable instance every method answers as it would on a new
    instance over the same name and mappings, and so its answer does not
    depend on which methods were called before it. *)
Theorem answers_like_new_instance m self :
  reachable self →
  fst (invoke m self)
  = fst (invoke m (__init__ (_script_name self) (_env self) (Some (_overrides self))
                     (Some (_lambda_overrides self)))) ∧
  ∀ m', fst (invoke m (snd (invoke m' self))) = fst (invoke m self).
Proof.
  intros Hr. pose proof (reachable_cache_ok self Hr) as Hok. split.
  - apply invoke_stable; [exact Hok | apply cache_ok_init | reflexivity].
  - intros m'. destruct (invoke_preserved m' self Hok) as [Hok' Hs].
    apply invoke_stable; assumption.
Qed.

Lemma answers_like_new_instance_witness :
  let self := __init__ "test" naming_env None None in
  fst (invoke (BuildBucketName "logs" true true true)
         (snd (invoke (Getter GetLogBucketName) self)))
  = fst (invoke (BuildBucketName "logs" true true true) self).
Proof.
  intros self.
  exact (proj2 (answers_like_new_instance (BuildBucketName "logs" true true true) self
                  (reach_init _ _ _ _)) (Getter GetLogBucketName)).
Defined.

(** X2. On a reachable instance, the getters that lower-case (application
    name, region, global prefix, environment, stack name, archive mode, log
    bucket name) hand back text that lower-casing leaves unchanged. *)
Theorem lower_cased_getters g self r :
  reachable self → lower_cased g = true →
  fst (call_getter g self) = Ok (PStr r) → Str.lower r = r.
Proof.
  intros Hr Hg. pose proof (reachable_cache_ok self Hr) as Hok.
  destruct (call_getter_computes g self Hok) as (-> & _).
  destruct g; try discriminate Hg; simpl;
    unfold resolved_application_name, resolved_aws_region, resolved_global_prefix,
      resolved_environment, resolved_stack_name, resolved_log_archive_mode,
      resolved_log_bucket;
    match goal with
    | |- map_ok PStr (val ?s ?n true false ?d) = _ → _ =>
        pose proof (val_lower s n d) as Hl;
        destruct (val s n true false d) as [v|e]; simpl;
        [intros [= <-]; apply Hl; reflexivity | intros H; discriminate H]
    end.
Qed.

Lemma lower_cased_getters_witness :
  Str.lower "us-east-1" = "us-east-1".
Proof.
  apply (lower_cased_getters GetAwsRegion
           (__init__ "test" {[ "AWS_REGION" := "US-East-1" ]} None None)).
  - apply reach_init.
  - reflexivity.
  - reflexivity.
Defined.

(** X3. On a reachable instance the log level is [logging.DEBUG] when the
    debug-mode getter hands back true and [logging.INFO] when it hands back
    false, and [get_log_level] raises exactly what [get_debug_mode] raises. *)
Theorem log_level_follows_debug_mode self :
  reachable self →
  fst (get_log_level self) =
  match fst (get_debug_mode self) with
  | Ok debug => Ok (if debug then logging_DEBUG else logging_INFO)
  | Raise e => Raise e
  end.
Proof.
  intros Hr. pose proof (reachable_cache_ok self Hr) as Hok.
  destruct (get_log_level_computes self Hok) as (-> & _).
  destruct (get_debug_mode_computes self Hok) as (-> & _).
  reflexivity.
Qed.

Lemma log_level_follows_debug_mode_witness :
  fst (get_log_level (__init__ "test" {[ "DEBUG_MODE" := "YES" ]} None None)) = Ok 10%Z.
Proof.
  rewrite (log_level_follows_debug_mode _ (reach_init _ _ _ _)). reflexivity.
Defined.

(** ** Names *)

(** X4. On a reachable instance the bucket name is
    [{prefix-}{app-}{env-}name] over what the segment getters hand back.  With
    test, myappname and dev: all three included gives
    test-myappname-dev-testbucket1, the prefix excluded gives
    myappname-dev-testbucket1, all excluded gives testbucket1. *)
Theorem bucket_name_form self :
  reachable self →
  ∃ prefix app env,
    (fst (get_global_prefix self) = Ok prefix ∧
     fst (get_application_name self) = Ok app ∧
     fst (get_environment self) = Ok env) ∧
    (∀ name gp an en,
       fst (build_bucket_name name gp an en self)
       = Ok (bucket_form prefix app env gp an en name)) ∧
    (prefix = "test" → app = "myappname" → env = "dev" →
     fst (build_bucket_name "testbucket1" true true true self)
     = Ok "test-myappname-dev-testbucket1" ∧
     fst (build_bucket_name "testbucket1" false true true self)
     = Ok "myappname-dev-testbucket1" ∧
     fst (build_bucket_name "testbucket1" false false false self)
     = Ok "testbucket1").
Proof.
  intros Hr. pose proof (reachable_cache_ok self Hr) as Hok.
  exists (segment self "GLOBAL_PREFIX"), (segment self "APPLICATION_NAME"),
    (segment self "ENVIRONMENT").
  assert (Hb : ∀ name gp an en,
             fst (build_bucket_name name gp an en self)
             = Ok (bucket_form (segment self "GLOBAL_PREFIX")
                     (segment self "APPLICATION_NAME") (segment self "ENVIRONMENT")
                     gp an en name)).
  { intros name gp an en.
    destruct (build_bucket_name_computes name gp an en self Hok) as (-> & _).
    unfold resolved_bucket_name. rewrite bucket_join. reflexivity. }
  destruct (segments_resolve self Hok) as (H1 & H2 & H3 & _).
  split; [auto|]. split; [exact Hb|].
  intros E1 E2 E3. rewrite !Hb, E1, E2, E3. repeat split.
Qed.

Lemma bucket_name_form_witness :
  fst (build_bucket_name "testbucket1" true true true
         (__init__ "test" naming_env None None))
  = Ok "test-myappname-dev-testbucket1".
Proof.
  destruct (bucket_name_form (__init__ "test" naming_env None None)
              (reach_init _ _ _ _))
    as (prefix & app & env & (H1 & H2 & H3) & _ & Hex).
  apply Hex.
  - vm_compute in H1. injection H1 as <-. reflexivity.
  - vm_compute in H2. injection H2 as <-. reflexivity.
  - vm_compute in H3. injection H3 as <-. reflexivity.
Defined.

Lemma lower_opt include x sep :
  Str.lower x = x → Str.lower sep = sep → Str.lower (opt include x sep) = opt include x sep.
Proof.
  intros Hx Hs. unfold opt. destruct (include && _); [|reflexivity].
  rewrite lower_app, Hx, Hs. reflexivity.
Qed.

Lemma segment_lower self name : Str.lower (segment self name) = segment self name.
Proof. unfold segment. apply lower_idempotent. Qed.

(** X5. On a reachable instance where no mapping holds LOG_BUCKET_NAME, the
    log bucket name is the bucket name of logs built with the prefix and the
    application name and without the environment, that is
    [{prefix-}{app-}logs]; where a mapping holds it, the log bucket name is
    that value lower-cased. *)
Theorem log_bucket_name_default self :
  reachable self →
  (¬ explicitly_set self "LOG_BUCKET_NAME" →
   fst (get_log_bucket_name self) = fst (build_bucket_name "logs" true true false self) ∧
   ∃ prefix app,
     fst (get_global_prefix self) = Ok prefix ∧
     fst (get_application_name self) = Ok app ∧
     fst (get_log_bucket_name self)
     = Ok (opt true prefix "-" ++ opt true app "-" ++ "logs")) ∧
  (∀ v, first_hit (lookups self "LOG_BUCKET_NAME") = Some v →
     fst (get_log_bucket_name self) = Ok (Str.lower v)).
Proof.
  intros Hr. pose proof (reachable_cache_ok self Hr) as Hok.
  destruct (get_log_bucket_name_computes self Hok) as (Hl & _).
  unfold resolved_log_bucket in Hl. split.
  - intros Hunset. rewrite val_unset_uses_fallback in Hl by exact Hunset.
    destruct (build_bucket_name_computes "logs" true true false self Hok) as (Hb & _).
    assert (E : fst (get_log_bucket_name self)
                = Ok (opt true (segment self "GLOBAL_PREFIX") "-"
                      ++ opt true (segment self "APPLICATION_NAME") "-" ++ "logs")).
    { rewrite Hl. unfold post_process, resolved_bucket_name.
      change (_validations !! "LOG_BUCKET_NAME") with (@None (list string)).
      cbn [orb]. rewrite bucket_join. unfold bucket_form.
      rewrite !lower_app, !lower_opt by (reflexivity || apply segment_lower).
      reflexivity. }
    split.
    + rewrite E, Hb. unfold resolved_bucket_name. rewrite bucket_join. reflexivity.
    + destruct (segments_resolve self Hok) as (H1 & H2 & _). eauto.
  - intros v Hv. rewrite Hl, (val_set_ignores_fallback _ _ _ _ _ v Hv). reflexivity.
Qed.

Lemma log_bucket_name_default_witness :
  fst (get_log_bucket_name
         (__init__ "test" {[ "LOG_BUCKET_NAME" := "My-Bucket" ]} None None))
  = Ok "my-bucket".
Proof.
  refine (proj2 (log_bucket_name_default _ (reach_init _ _ _ _)) "My-Bucket" _).
  reflexivity.
Defined.

(** X6. On a reachable instance the hierarchical name of a parameter is the
    path prefix built with the same flags, followed by ssm/ and the name: the
    path built without a name is a prefix of every name built with one. *)
Theorem ssm_name_extends_path self name gp an en sn :
  reachable self →
  ∃ path,
    fst (build_ssm_param_name None gp an en sn self) = Ok path ∧
    fst (build_ssm_param_name (Some name) gp an en sn self)
    = Ok (path ++ "ssm/" ++ name).
Proof.
  intros Hr.
  destruct (hierarchical_name_form self Hr)
    as (prefix & app & env & stack & _ & Hb & _).
  exists (hierarchical_form prefix app env stack gp an en sn None).
  split; [apply Hb|]. rewrite Hb. unfold hierarchical_form.
  rewrite !string_app_assoc. reflexivity.
Qed.

Lemma ssm_name_extends_path_witness :
  ∃ path,
    fst (build_ssm_param_name None true true false false
           (__init__ "test" naming_env None None)) = Ok path ∧
    fst (build_ssm_param_name (Some "webhook_url") true true false false
           (__init__ "test" naming_env None None))
    = Ok (path ++ "ssm/" ++ "webhook_url").
Proof.
  exact (ssm_name_extends_path _ "webhook_url" true true false false
           (reach_init "test" naming_env None None)).
Defined.

(** ** Getters *)

(** X7. On a reachable instance the archive mode, when the getter hands it
    back, is s3 or stdout, whatever the case it was written in. *)
Theorem log_archive_mode_values self mode :
  reachable self →
  fst (get_log_archive_mode self) = Ok mode → mode = "s3" ∨ mode = "stdout".
Proof.
  intros Hr. pose proof (reachable_cache_ok self Hr) as Hok.
  destruct (get_log_archive_mode_computes self Hok) as (-> & _).
  unfold resolved_log_archive_mode. rewrite val_post_process.
  destruct (first_hit _) as [v|]; [|discriminate].
  unfold post_process.
  change (_validations !! "LOG_ARCHIVE_MODE") with (Some ["s3"; "stdout"]).
  cbn [orb].
  destruct (bool_decide (Str.lower v ∈ ["s3"; "stdout"])) eqn:E; [|discriminate].
  intros [= <-]. apply bool_decide_eq_true_1 in E.
  apply elem_of_cons in E as [E|E]; [left; exact E|].
  apply elem_of_cons in E as [E|E]; [right; exact E|].
  apply elem_of_nil in E. destruct E.
Qed.

Lemma log_archive_mode_values_witness :
  "s3" = "s3" ∨ "s3" = "stdout".
Proof.
  apply (log_archive_mode_values
           (__init__ "test" {[ "LOG_ARCHIVE_MODE" := "S3" ]} None None)).
  - apply reach_init.
  - reflexivity.
Defined.

(** X8. On a reachable instance the notification target and the log path
    are handed back exactly as written (no lower-casing): the notification
    target is the first mapping's value, or the missing-configuration error
    when no mapping holds it; the log path is the first mapping's value, the
    default ../logs/ standing last. *)
Theorem verbatim_getters self :
  reachable self →
  fst (get_notification_arn self) =
    match first_hit (lookups self "NOTIFICATION_ARN") with
    | Some v => Ok v
    | None => Raise (MissingConfiguration "NOTIFICATION_ARN")
    end ∧
  fst (get_log_path self) =
    Ok (default "../logs/"
          (first_hit [ _lambda_overrides self !! _script_name self
                         ≫= (λ overrides, overrides !! "LOG_PATH");
                       _overrides self !! "LOG_PATH";
                       _env self !! "LOG_PATH" ])).
Proof.
  intros Hr. pose proof (reachable_cache_ok self Hr) as Hok.
  destruct (get_notification_arn_computes self Hok) as (-> & _).
  destruct (get_log_path_computes self Hok) as (-> & _).
  unfold resolved_notification_arn, resolved_log_path.
  rewrite !val_post_process, !first_hit_app. split.
  - destruct (first_hit _); reflexivity.
  - unfold lookups. change (_defaults !! "LOG_PATH") with (Some "../logs/").
    destruct (_ ≫= _); [reflexivity|].
    destruct (_overrides self !! "LOG_PATH"); [reflexivity|].
    destruct (_env self !! "LOG_PATH"); reflexivity.
Qed.

Lemma verbatim_getters_witness :
  fst (get_notification_arn
         (__init__ "test" {[ "NOTIFICATION_ARN" := "arn:aws:sns:Us-East-1:1:Topic" ]}
            None None))
  = Ok "arn:aws:sns:Us-East-1:1:Topic".
Proof.
  rewrite (proj1 (verbatim_getters _ (reach_init _ _ _ _))). reflexivity.
Defined.

(** X9. The getters of the settings that have a default and no enumerated
    domain never raise, on any instance: application name, global prefix,
    environment, stack name and log path always hand back a string. *)
Theorem defaulted_getters_never_raise self :
  (∃ v, fst (get_application_name self) = Ok v) ∧
  (∃ v, fst (get_global_prefix self) = Ok v) ∧
  (∃ v, fst (get_environment self) = Ok v) ∧
  (∃ v, fst (get_stack_name self) = Ok v) ∧
  (∃ v, fst (get_log_path self) = Ok v).
Proof.
  repeat split.
  - unfold get_application_name, memo, pure_call.
    destruct (application_name self); [eauto|].
    rewrite val_segment by reflexivity. eauto.
  - unfold get_global_prefix, memo, pure_call.
    destruct (global_prefix self); [eauto|].
    rewrite val_segment by reflexivity. eauto.
  - unfold get_environment, memo, pure_call.
    destruct (environment self); [eauto|].
    rewrite val_segment by reflexivity. eauto.
  - unfold get_stack_name, memo, pure_call.
    destruct (stack_name self); [eauto|].
    rewrite val_segment by reflexivity. eauto.
  - unfold get_log_path, memo, pure_call.
    destruct (log_path self); [eauto|].
    rewrite val_post_process, first_hit_app.
    destruct (first_hit_default self "LOG_PATH" _ eq_refl) as [v ->].
    simpl. eauto.
Qed.

(** X10. The overrides of another caller are never consulted: giving any
    caller other than the instance's own a set of overrides changes nothing
    of what [_get_val] and [val] hand back. *)
Theorem other_callers_overrides_ignored self caller overrides :
  caller ≠ _script_name self →
  (∀ name default_override,
     _get_val (with_caller_overrides caller overrides self) name default_override
     = _get_val self name default_override) ∧
  (∀ name to_lower bool_coerce default_override,
     val (with_caller_overrides caller overrides self) name to_lower bool_coerce
       default_override
     = val self name to_lower bool_coerce default_override).
Proof.
  intros Hne.
  assert (E : ∀ name, lookups (with_caller_overrides caller overrides self) name
                      = lookups self name).
  { intros name. unfold lookups, with_caller_overrides. simpl.
    rewrite lookup_insert_ne by exact Hne. reflexivity. }
  split.
  - intros. rewrite !_get_val_first_hit, E. reflexivity.
  - intros. rewrite !val_post_process, E. reflexivity.
Qed.

Lemma other_callers_overrides_ignored_witness :
  val (with_caller_overrides "other" {[ "DEBUG_MODE" := "on" ]}
         (__init__ "test" ∅ None None)) "DEBUG_MODE" false true None
  = Ok false.
Proof.
  assert (H : "other" ≠ _script_name (__init__ "test" ∅ None None))
    by (intros H; discriminate H).
  rewrite (proj2 (other_callers_overrides_ignored (__init__ "test" ∅ None None)
                    "other" {[ "DEBUG_MODE" := "on" ]} H)).
  reflexivity.
Defined.

(** ** What the methods leave alone *)

Lemma preserves_ret {A B} (f : LambdaConfig → B) (a : A) : preserves f (ret a).
Proof. intros self. reflexivity. Qed.

Lemma preserves_raise {A B} (f : LambdaConfig → B) e : preserves f (@raise A e).
Proof. intros self. reflexivity. Qed.

Lemma preserves_pure_call {A B} (f : LambdaConfig → B) (g : LambdaConfig → result A) :
  preserves f (pure_call g).
Proof. intros self. reflexivity. Qed.

Lemma preserves_bind {A B C} (f : LambdaConfig → C) (m : M A) (k : A → M B) :
  preserves f m → (∀ a, preserves f (k a)) → preserves f (bind m k).
Proof.
  intros Hm Hk self. unfold bind. specialize (Hm self).
  destruct (m self) as [[a|e] self']; simpl in *.
  - rewrite (Hk a self'). exact Hm.
  - exact Hm.
Qed.

Lemma preserves_memo {A B} (f : LambdaConfig → B) (slot : LambdaConfig → option A)
    assign compute :
  (∀ v s, f (assign v s) = f s) → preserves f compute →
  preserves f (memo slot assign compute).
Proof.
  intros Ha Hc self. unfold memo. destruct (slot self); [reflexivity|].
  specialize (Hc self). destruct (compute self) as [[v|e] self']; simpl in *.
  - rewrite Ha. exact Hc.
  - exact Hc.
Qed.

Lemma preserves_map_result {A B C} (f : LambdaConfig → C) (g : A → B) (m : M A) :
  preserves f m → preserves f (map_result g m).
Proof.
  intros Hm. unfold map_result. apply preserves_bind; [exact Hm|].
  intros a. apply preserves_ret.
Qed.

Lemma preserves_append_segment {B} (f : LambdaConfig → B) include get_x chunks :
  preserves f get_x → preserves f (append_segment include get_x chunks).
Proof.
  intros Hg. unfold append_segment. destruct include; [|apply preserves_ret].
  apply preserves_bind; [exact Hg|]. intros x.
  destruct (0 <? Str.len x)%nat; [|apply preserves_ret].
  apply preserves_bind; [exact Hg|]. intros x'. apply preserves_ret.
Qed.

Lemma preserves_simple_getter {A B} (f : LambdaConfig → B)
    (slot : LambdaConfig → option A) assign g :
  (∀ v s, f (assign v s) = f s) → preserves f (memo slot assign (pure_call g)).
Proof. intros Ha. apply preserves_memo; [exact Ha | apply preserves_pure_call]. Qed.

Lemma preserves_build_bucket_name {B} (f : LambdaConfig → B) name gp an en :
  preserves f get_global_prefix → preserves f get_application_name →
  preserves f get_environment → preserves f (build_bucket_name name gp an en).
Proof.
  intros H1 H2 H3. unfold build_bucket_name.
  apply preserves_bind; [apply preserves_append_segment, H1 | intros c1].
  apply preserves_bind; [apply preserves_append_segment, H2 | intros c2].
  apply preserves_bind; [apply preserves_append_segment, H3 | intros c3].
  apply preserves_ret.
Qed.

Lemma getter_preserves_sources g : preserves sources (call_getter g).
Proof.
  destruct g; simpl; apply preserves_map_result;
    try (apply preserves_simple_getter; reflexivity).
  - apply preserves_memo; [reflexivity|].
    apply preserves_bind; [apply preserves_simple_getter; reflexivity | intros d].
    apply preserves_ret.
  - apply preserves_memo; [reflexivity|].
    apply preserves_bind; [apply preserves_simple_getter; reflexivity | intros r].
    apply preserves_pure_call.
  - apply preserves_memo; [reflexivity|].
    apply preserves_bind; [apply preserves_simple_getter; reflexivity | intros mode].
    destruct (negb _); [apply preserves_raise | apply preserves_pure_call].
  - apply preserves_memo; [reflexivity|].
    apply preserves_bind; [|intros c; apply preserves_pure_call].
    apply preserves_build_bucket_name; apply preserves_simple_getter; reflexivity.
Qed.

(** X11. No method ever changes the caller name or any of the three
    mappings of the instance it is called on, whether it hands back a value
    or raises, and whatever the instance holds. *)
Theorem methods_keep_mappings m self :
  _script_name (snd (invoke m self)) = _script_name self ∧
  _overrides (snd (invoke m self)) = _overrides self ∧
  _lambda_overrides (snd (invoke m self)) = _lambda_overrides self ∧
  _env (snd (invoke m self)) = _env self.
Proof.
  assert (H : sources (snd (invoke m self)) = sources self).
  { destruct m as [g|name gp an en sn|name gp an en sn|name gp an en]; simpl.
    - apply getter_preserves_sources.
    - apply preserves_map_result. unfold build_legacy_ssm_param_name.
      apply preserves_bind; [apply preserves_append_segment,
        preserves_simple_getter; reflexivity | intros c1].
      apply preserves_bind; [apply preserves_append_segment,
        preserves_simple_getter; reflexivity | intros c2].
      apply preserves_bind; [apply preserves_append_segment,
        preserves_simple_getter; reflexivity | intros c3].
      apply preserves_bind; [apply preserves_append_segment,
        preserves_simple_getter; reflexivity | intros c4].
      apply preserves_ret.
    - apply preserves_map_result. unfold build_ssm_param_name.
      apply preserves_bind; [apply preserves_append_segment,
        preserves_simple_getter; reflexivity | intros c1].
      apply preserves_bind; [apply preserves_append_segment,
        preserves_simple_getter; reflexivity | intros c2].
      apply preserves_bind; [apply preserves_append_segment,
        preserves_simple_getter; reflexivity | intros c3].
      apply preserves_bind; [apply preserves_append_segment,
        preserves_simple_getter; reflexivity | intros c4].
      apply preserves_ret.
    - apply preserves_map_result.
      apply preserves_build_bucket_name; apply preserves_simple_getter; reflexivity. }
  unfold sources in H. injection H as H1 H2 H3 H4. auto.
Qed.

Lemma memo_raise_slot {A} (slot : LambdaConfig → option A) assign compute self e :
  preserves slot compute →
  fst (memo slot assign compute self) = Raise e →
  slot (snd (memo slot assign compute self)) = None.
Proof.
  intros Hc. unfold memo. destruct (slot self) as [v|] eqn:E; [discriminate|].
  specialize (Hc self). destruct (compute self) as [[v|e'] self']; simpl in *.
  - discriminate.
  - intros _. rewrite Hc. exact E.
Qed.

Lemma map_result_raise_slot {A} (g : A → pyval) (slot : LambdaConfig → option A)
    assign compute self e :
  preserves slot compute →
  fst (map_result g (memo slot assign compute) self) = Raise e →
  g <$> slot (snd (map_result g (memo slot assign compute) self)) = None.
Proof.
  intros Hc. unfold map_result, bind.
  pose proof (memo_raise_slot slot assign compute self) as Hm.
  destruct (memo slot assign compute self) as [[v|e'] self']; simpl in *.
  - discriminate.
  - intros [= <-]. rewrite (Hm e' Hc eq_refl). reflexivity.
Qed.

(** X12. A getter that raises assigns nothing to its own attribute: after
    the failed call the attribute is still [None], so the next call resolves
    the setting again instead of repeating a remembered failure. *)
Theorem failures_not_memoized g self e :
  fst (call_getter g self) = Raise e →
  slot_of g (snd (call_getter g self)) = None.
Proof.
  destruct g; simpl;
    unfold get_application_name, get_debug_mode, get_log_level, get_log_path,
      get_safe_mode, get_aws_region, get_fips_mode, get_global_prefix,
      get_environment, get_stack_name, get_log_archive_mode, get_log_kms_key_id,
      get_notification_arn, get_log_bucket_name;
    apply map_result_raise_slot;
    try apply preserves_pure_call.
  - apply preserves_bind; [apply preserves_simple_getter; reflexivity | intros d].
    apply preserves_ret.
  - apply preserves_bind; [apply preserves_simple_getter; reflexivity | intros r].
    apply preserves_pure_call.
  - apply preserves_bind; [apply preserves_simple_getter; reflexivity | intros mode].
    destruct (negb _); [apply preserves_raise | apply preserves_pure_call].
  - apply preserves_bind; [|intros c; apply preserves_pure_call].
    apply preserves_build_bucket_name; apply preserves_simple_getter; reflexivity.
Qed.

Lemma failures_not_memoized_witness :
  let self := __init__ "test" {[ "FIPS_MODE" := "nonsense" ]} None None in
  let self' := snd (call_getter GetFipsMode self) in
  fips_mode self' = None ∧
  fst (call_getter GetFipsMode
         (with_sources (<[ "AWS_REGION" := "us-east-1" ]> {[ "FIPS_MODE" := "on" ]})
            ∅ ∅ self'))
  = Ok (PBool true).
Proof.
  intros self self'. split; [|reflexivity].
  assert (H : fst (call_getter GetFipsMode self)
              = Raise (MissingConfiguration "AWS_REGION")) by reflexivity.
  pose proof (failures_not_memoized GetFipsMode self _ H) as Hs.
  fold self' in Hs. simpl in Hs. destruct (fips_mode self'); [discriminate Hs | reflexivity].
Defined.

(** * Properties of the layer updater *)

Module LayerUpdaterProperties.

Import LayerUpdater.

(** ** Splitting at colons *)

Lemma join_cons sep x y rest :
  Str.join sep (x :: y :: rest) = x ++ sep ++ Str.join sep (y :: rest).
Proof. reflexivity. Qed.

Lemma split_first_join s :
  Str.join ":" (fst (split_first colon s) :: snd (split_first colon s)) = s.
Proof.
  induction s as [|c s IH]; [reflexivity|].
  cbn [split_first]. destruct (split_first colon s) as [piece pieces].
  cbn [fst snd] in IH.
  destruct (Ascii.eqb c colon) eqn:E; cbn [fst snd].
  - apply Ascii.eqb_eq in E as ->. rewrite join_cons, IH. reflexivity.
  - destruct pieces as [|y rest].
    + cbn [Str.join] in *. rewrite IH. reflexivity.
    + rewrite join_cons in *. rewrite <- IH. reflexivity.
Qed.

Lemma split_join s : Str.join ":" (split colon s) = s.
Proof.
  unfold split. pose proof (split_first_join s) as H.
  destruct (split_first colon s). exact H.
Qed.

Lemma split_first_colon_free s :
  colon_free (fst (split_first colon s)) = true ∧
  Forall (λ piece, colon_free piece = true) (snd (split_first colon s)).
Proof.
  induction s as [|c s [IH1 IH2]]; [split; [reflexivity | constructor]|].
  simpl. destruct (split_first colon s) as [piece pieces]. simpl in IH1, IH2.
  destruct (Ascii.eqb c colon) eqn:E; cbn [fst snd].
  - split; [reflexivity | constructor; assumption].
  - split; [|assumption]. simpl. rewrite E, IH1. reflexivity.
Qed.

Lemma split_colon_free s : Forall (λ piece, colon_free piece = true) (split colon s).
Proof.
  unfold split. pose proof (split_first_colon_free s) as [H1 H2].
  destruct (split_first colon s). constructor; assumption.
Qed.

Lemma split_first_piece x :
  colon_free x = true → split_first colon x = (x, []).
Proof.
  induction x as [|c x IH]; [reflexivity|].
  simpl. intros H. apply andb_true_iff in H as [Hc Hx].
  rewrite (IH Hx). apply negb_true_iff in Hc. rewrite Hc. reflexivity.
Qed.

Lemma split_first_app x t :
  colon_free x = true →
  split_first colon (x ++ String colon t) = (x, split colon t).
Proof.
  induction x as [|c x IH].
  - intros _. change (EmptyString ++ String colon t) with (String colon t).
    simpl. unfold split. destruct (split_first colon t). reflexivity.
  - simpl. intros H. apply andb_true_iff in H as [Hc Hx].
    change (String c x ++ String colon t) with (String c (x ++ String colon t)).
    simpl. rewrite (IH Hx). apply negb_true_iff in Hc. rewrite Hc. reflexivity.
Qed.

Lemma split_of_join pieces :
  pieces ≠ [] → Forall (λ piece, colon_free piece = true) pieces →
  split colon (Str.join ":" pieces) = pieces.
Proof.
  induction pieces as [|x [|y rest] IH]; intros Hne Hall.
  - congruence.
  - inversion Hall as [|? ? Hx _]; subst. simpl. unfold split.
    rewrite (split_first_piece x Hx). reflexivity.
  - inversion Hall as [|? ? Hx Hrest]; subst.
    rewrite join_cons. change (":" ++ Str.join ":" (y :: rest))
      with (String colon (Str.join ":" (y :: rest))).
    unfold split at 1. rewrite (split_first_app x _ Hx).
    rewrite IH by (congruence || assumption). reflexivity.
Qed.

(** ** Parsing a layer version ARN *)

Lemma parse_fields int arn :
  parse_lambda_layer_arn int (Some arn) =
  match split colon arn with
  | [_; _; _; r; a; _; l; v] =>
      match int v with
      | Some n => Return {| region := r; account_id := a; layer := l; version := n |}
      | None => Raised ValueError
      end
  | _ => Raised ValueError
  end.
Proof. reflexivity. Qed.

(** X13. [parse_lambda_layer_arn] hands back a result exactly for a text
    made of eight fields without colon joined by colons whose eighth field
    [int] accepts; the result then holds the fourth, fifth and seventh fields
    and the number of the eighth.  On any other text it raises [ValueError],
    and on [None] it raises [AttributeError]. *)
Theorem parse_lambda_layer_arn_fields int :
  (∀ arn parsed,
     parse_lambda_layer_arn int (Some arn) = Return parsed ↔
     ∃ f1 f2 f3 f6 f8,
       Forall (λ piece, colon_free piece = true)
         [f1; f2; f3; region parsed; account_id parsed; f6; layer parsed; f8] ∧
       arn = Str.join ":"
               [f1; f2; f3; region parsed; account_id parsed; f6; layer parsed; f8] ∧
       int f8 = Some (version parsed)) ∧
  (∀ arn e, parse_lambda_layer_arn int (Some arn) = Raised e → e = ValueError) ∧
  parse_lambda_layer_arn int None = Raised AttributeError.
Proof.
  split; [|split; [|reflexivity]].
  - intros arn parsed. rewrite parse_fields. split.
    + pose proof (split_join arn) as Hj. pose proof (split_colon_free arn) as Hf.
      destruct (split colon arn)
        as [|x1 [|x2 [|x3 [|x4 [|x5 [|x6 [|x7 [|x8 [|x9 rest]]]]]]]]];
        try discriminate.
      destruct (int x8) as [n|] eqn:E; [|discriminate].
      intros [= <-]. cbn [region account_id layer version].
      exists x1, x2, x3, x6, x8. auto.
    + intros (f1 & f2 & f3 & f6 & f8 & Hf & -> & Hi).
      rewrite split_of_join by (congruence || exact Hf). rewrite Hi.
      destruct parsed; reflexivity.
  - intros arn e. rewrite parse_fields.
    destruct (split colon arn)
      as [|x1 [|x2 [|x3 [|x4 [|x5 [|x6 [|x7 [|x8 [|x9 rest]]]]]]]]];
      try (intros [= <-]; reflexivity).
    destruct (int x8); [discriminate | intros [= <-]; reflexivity].
Qed.

Lemma parse_lambda_layer_arn_fields_witness :
  parse_lambda_layer_arn int_of_digits
    (Some "arn:aws:lambda:us-east-1:123456789012:layer:mylayer:3")
  = Return {| region := "us-east-1"; account_id := "123456789012";
              layer := "mylayer"; version := 3 |}.
Proof.
  apply (proj1 (parse_lambda_layer_arn_fields int_of_digits)).
  exists "arn", "aws", "lambda", "layer", "3". split; [|split; reflexivity].
  repeat constructor.
Defined.

Lemma get_version_return int arn v :
  get_layer_version_from_arn int arn = Return v ↔
  ∃ parsed, parse_lambda_layer_arn int arn = Return parsed ∧ version parsed = v.
Proof.
  unfold get_layer_version_from_arn.
  destruct (parse_lambda_layer_arn int arn) as [parsed|e]; simpl.
  - split; [intros [= <-]; eauto | intros (p & [= <-] & <-); reflexivity].
  - split; [discriminate | intros (p & H & _); discriminate H].
Qed.

(** ** The best layer version *)

Lemma max_from_return {A} (key : A → outcome Z) items :
  ∀ best best_key b,
    max_from key best best_key items = Return b →
    (b = best ∧ ∀ x, x ∈ items → ∃ k, key x = Return k ∧ (k ≤ best_key)%Z) ∨
    (∃ pre post kb,
       items = (pre ++ b :: post)%list ∧ key b = Return kb ∧ (best_key < kb)%Z ∧
       (∀ x, x ∈ pre → ∃ k, key x = Return k ∧ (k < kb)%Z) ∧
       (∀ x, x ∈ post → ∃ k, key x = Return k ∧ (k ≤ kb)%Z)).
Proof.
  induction items as [|x rest IH]; intros best best_key b; simpl.
  - intros [= <-]. left. split; [reflexivity|]. intros x Hx. inversion Hx.
  - destruct (key x) as [k|e] eqn:Ek; simpl; [|discriminate].
    destruct (best_key <? k)%Z eqn:Hlt.
    + apply Z.ltb_lt in Hlt. intros H.
      destruct (IH x k b H) as [[-> Hall] | (pre & post & kb & -> & Hb & Hk & Hpre & Hpost)].
      * right. exists [], rest, k. repeat split; try assumption.
        intros y Hy. inversion Hy.
      * right. exists (x :: pre), post, kb. repeat split; try assumption; [lia|].
        intros y Hy. apply elem_of_cons in Hy as [-> | Hy]; [eauto | auto].
    + apply Z.ltb_ge in Hlt. intros H.
      destruct (IH best best_key b H)
        as [[-> Hall] | (pre & post & kb & -> & Hb & Hk & Hpre & Hpost)].
      * left. split; [reflexivity|]. intros y Hy.
        apply elem_of_cons in Hy as [-> | Hy]; [eauto | auto].
      * right. exists (x :: pre), post, kb. repeat split; try assumption.
        intros y Hy. apply elem_of_cons in Hy as [-> | Hy]; [|auto].
        exists k. split; [assumption | lia].
Qed.

Lemma max_from_total {A} (key : A → outcome Z) items :
  (∀ x, x ∈ items → ∃ k, key x = Return k) →
  ∀ best best_key, ∃ b, max_from key best best_key items = Return b.
Proof.
  induction items as [|x rest IH]; intros Hall best best_key; simpl; [eauto|].
  destruct (Hall x) as [k ->]; [apply elem_of_cons; left; reflexivity|]. simpl.
  assert (Hrest : ∀ y, y ∈ rest → ∃ k, key y = Return k).
  { intros y Hy. apply Hall, elem_of_cons. right. exact Hy. }
  destruct (best_key <? k)%Z; apply IH, Hrest.
Qed.

(** X14. The best layer version is chosen only when every listed ARN parses
    and the list is not empty: it is then an ARN of the list whose version
    number is at least every other's, and the first such in the list.  An
    empty list raises [ValueError]; a list holding an ARN that does not parse
    raises. *)
Theorem best_layer_version_is_first_maximum int layer_versions :
  (∀ best,
     best_layer_version int layer_versions = Return best →
     ∃ pre post v,
       layer_versions = (pre ++ best :: post)%list ∧
       get_layer_version_from_arn int best = Return v ∧
       (∀ x, x ∈ pre → ∃ k, get_layer_version_from_arn int x = Return k ∧ (k < v)%Z) ∧
       (∀ x, x ∈ post → ∃ k, get_layer_version_from_arn int x = Return k ∧ (k ≤ v)%Z)) ∧
  (layer_versions = [] → best_layer_version int layer_versions = Raised ValueError) ∧
  (layer_versions ≠ [] →
   (∀ x, x ∈ layer_versions → ∃ k, get_layer_version_from_arn int x = Return k) →
   ∃ best, best_layer_version int layer_versions = Return best).
Proof.
  unfold best_layer_version, max_by. split; [|split].
  - intros best. destruct layer_versions as [|x rest]; [discriminate|].
    destruct (get_layer_version_from_arn int x) as [k|e] eqn:Ek; simpl; [|discriminate].
    intros H.
    destruct (max_from_return _ _ _ _ _ H)
      as [[-> Hall] | (pre & post & kb & -> & Hb & Hk & Hpre & Hpost)].
    + exists [], rest, k. repeat split; try assumption.
      intros y Hy. inversion Hy.
    + exists (x :: pre), post, kb. repeat split; try assumption.
      intros y Hy. apply elem_of_cons in Hy as [-> | Hy]; [eauto | auto].
  - intros ->. reflexivity.
  - intros Hne Hall. destruct layer_versions as [|x rest]; [congruence|].
    destruct (Hall x) as [k ->]; [apply elem_of_cons; left; reflexivity|]. simpl.
    apply max_from_total. intros y Hy. apply Hall, elem_of_cons. right. exact Hy.
Qed.

Lemma best_layer_version_is_first_maximum_witness :
  best_layer_version int_of_digits
    [Some "arn:aws:lambda:us-east-1:1:layer:core:2";
     Some "arn:aws:lambda:us-east-1:1:layer:core:10";
     Some "arn:aws:lambda:us-east-1:2:layer:core:10"]
  = Return (Some "arn:aws:lambda:us-east-1:1:layer:core:10").
Proof.
  destruct (proj2 (proj2 (best_layer_version_is_first_maximum int_of_digits
              [Some "arn:aws:lambda:us-east-1:1:layer:core:2";
               Some "arn:aws:lambda:us-east-1:1:layer:core:10";
               Some "arn:aws:lambda:us-east-1:2:layer:core:10"])))
    as [best Hbest].
  - discriminate.
  - intros x Hx. repeat (apply elem_of_cons in Hx as [-> | Hx]; [vm_compute; eauto|]).
    inversion Hx.
  - rewrite Hbest. vm_compute in Hbest. exact (eq_sym Hbest).
Defined.

(** ** Loops *)

Lemma for_each_return {A B} (f : A → outcome B) xs ys :
  for_each f xs = Return ys ↔ Forall2 (λ x y, f x = Return y) xs ys.
Proof.
  revert ys. induction xs as [|x rest IH]; intros ys; simpl.
  - split; [intros [= <-]; constructor | intros H; inversion H; reflexivity].
  - destruct (f x) as [y|e] eqn:Ex; simpl.
    + destruct (for_each f rest) as [ys'|e] eqn:Er; simpl.
      * split.
        -- intros [= <-]. constructor; [exact Ex | apply IH; reflexivity].
        -- intros H. inversion H as [|? y' ? ys'' Hy Hr]; subst.
           rewrite Ex in Hy. injection Hy as <-.
           apply IH in Hr. injection Hr as <-. reflexivity.
      * split; [discriminate|].
        intros H. inversion H as [|? y' ? ys'' Hy Hr]; subst.
        apply IH in Hr. discriminate Hr.
    + split; [discriminate|].
      intros H. inversion H as [|? y' ? ys'' Hy Hr]; subst.
      rewrite Ex in Hy. discriminate Hy.
Qed.

Lemma new_layers_return int layer_name best arns layers' :
  new_layers int layer_name best arns = Return layers' ↔
  Forall2 (λ arn new,
             ∃ parsed, parse_lambda_layer_arn int arn = Return parsed ∧
                       new = if String.eqb (layer parsed) layer_name
                             then best else arn)
    arns layers'.
Proof.
  unfold new_layers. rewrite for_each_return.
  split; intros H; (eapply Forall2_impl; [exact H|]); intros arn new; cbn beta.
  - destruct (parse_lambda_layer_arn int arn) as [parsed|e]; simpl; [|discriminate].
    intros [= <-]. eauto.
  - intros (parsed & -> & ->). reflexivity.
Qed.

(** X15. The new layer list is built only when every ARN of the old list
    parses; it then has the entries of the old list in their order, each one
    replaced by the best version when its layer name is the layer being
    updated and kept as it is otherwise.  When the best version itself names
    that layer, building the list again from the result changes nothing. *)
Theorem new_layers_replaces_in_place int layer_name best arns :
  (∀ layers',
     new_layers int layer_name best arns = Return layers' ↔
     Forall2 (λ arn new,
                ∃ parsed, parse_lambda_layer_arn int arn = Return parsed ∧
                          new = if String.eqb (layer parsed) layer_name
                                then best else arn)
       arns layers') ∧
  (∀ layers' parsed_best,
     new_layers int layer_name best arns = Return layers' →
     parse_lambda_layer_arn int best = Return parsed_best →
     layer parsed_best = layer_name →
     new_layers int layer_name best layers' = Return layers').
Proof.
  split; [apply new_layers_return|].
  intros layers' parsed_best Hn Hb Hname.
  apply new_layers_return. apply new_layers_return in Hn.
  induction Hn as [|arn new arns' layers'' (parsed & Hp & ->) _ IH];
    constructor; [|exact IH].
  destruct (String.eqb (layer parsed) layer_name) eqn:E.
  - exists parsed_best. split; [exact Hb|].
    rewrite Hname, String.eqb_refl. reflexivity.
  - exists parsed. split; [exact Hp|]. rewrite E. reflexivity.
Qed.

Lemma new_layers_replaces_in_place_witness :
  new_layers int_of_digits "core" (Some "arn:aws:lambda:us-east-1:1:layer:core:10")
    [Some "arn:aws:lambda:us-east-1:1:layer:core:10";
     Some "arn:aws:lambda:us-east-1:1:layer:other:4"]
  = Return [Some "arn:aws:lambda:us-east-1:1:layer:core:10";
            Some "arn:aws:lambda:us-east-1:1:layer:other:4"].
Proof.
  refine (proj2 (new_layers_replaces_in_place int_of_digits "core"
                   (Some "arn:aws:lambda:us-east-1:1:layer:core:10")
                   [Some "arn:aws:lambda:us-east-1:1:layer:core:2";
                    Some "arn:aws:lambda:us-east-1:1:layer:other:4"])
            _ {| region := "us-east-1"; account_id := "1"; layer := "core";
                 version := 10 |} _ _ _); reflexivity.
Defined.




Lemma existsb_equals_entry best layers : existsb (equals_entry best) layers = false.
Proof. induction layers as [|l rest IH]; [reflexivity | exact IH]. Qed.

Lemma join_items_return sep items :
  Forall (λ item : option string, is_Some item) items →
  ∃ joined, join_items sep items = Return joined.
Proof.
  induction items as [|item rest IH]; intros H; [simpl; eauto|].
  inversion H as [|? ? [x ->] Hrest]; subst.
  destruct (IH Hrest) as [joined Hj].
  destruct rest as [|item' rest']; [simpl; eauto|].
  change (join_items sep (Some x :: item' :: rest'))
    with (and_then (join_items sep (item' :: rest'))
            (λ joined, Return (x ++ sep ++ joined))).
  rewrite Hj. simpl. eauto.
Qed.

(** X17. For a function whose layer ARNs all parse (as they do for every
    selected function), and a best version that is a text, a round of the
    update loop always passes a request to [update_function_configuration]:
    the test that should skip a function already on the best version compares
    the ARN with the entries of 'Layers', which are dictionaries, and never
    holds.  The request names the function by its 'FunctionArn' and carries
    the new layer list, one entry for each layer of the function. *)
Theorem update_always_requested int layer_name best target names :
  layer_names int target = Return names →
  ∃ layers layers',
    Layers target = Some layers ∧
    new_layers int layer_name (Some best) (map Arn layers) = Return layers' ∧
    length layers' = length names ∧
    planned_update int layer_name (Some best) target
    = Return (Some {| request_FunctionName := FunctionArn target;
                      request_Layers := layers' |}).
Proof.
  unfold layer_names, planned_update.
  destruct (Layers target) as [layers|]; [|discriminate].
  intros Hn. apply for_each_return in Hn.
  assert (Hnew : ∃ layers',
            new_layers int layer_name (Some best) (map Arn layers) = Return layers' ∧
            length layers' = length names ∧
            Forall (λ item : option string, is_Some item) layers').
  { clear -Hn. induction Hn as [|l n ls ns Hl _ (layers' & IH & Hlen & Hall)].
    - exists []. repeat split. constructor.
    - destruct (parse_lambda_layer_arn int (Arn l)) as [parsed|e] eqn:Ep;
        [|discriminate Hl].
      unfold new_layers in *. simpl. rewrite Ep, IH. simpl.
      eexists. split; [reflexivity|]. split; [simpl; rewrite Hlen; reflexivity|].
      constructor; [|exact Hall].
      destruct (String.eqb (layer parsed) layer_name); [eauto|].
      destruct (Arn l); [eauto | discriminate Ep]. }
  destruct Hnew as (layers' & Hnew & Hlen & Hall).
  destruct (join_items_return "," layers' Hall) as [joined Hj].
  exists layers, layers'. rewrite existsb_equals_entry, Hnew. simpl. rewrite Hj.
  simpl. auto.
Qed.

Lemma update_always_requested_witness :
  planned_update int_of_digits "core" (Some "arn:aws:lambda:us-east-1:1:layer:core:10")
    {| FunctionName := Some "f"; FunctionArn := Some "arn:f"; Runtime := None;
       Layers := Some [ {| Arn := Some "arn:aws:lambda:us-east-1:1:layer:core:10" |} ] |}
  = Return (Some {| request_FunctionName := Some "arn:f";
                    request_Layers := [Some "arn:aws:lambda:us-east-1:1:layer:core:10"] |}).
Proof.
  destruct (update_always_requested int_of_digits "core"
              "arn:aws:lambda:us-east-1:1:layer:core:10"
              {| FunctionName := Some "f"; FunctionArn := Some "arn:f"; Runtime := None;
                 Layers := Some [ {| Arn := Some "arn:aws:lambda:us-east-1:1:layer:core:10" |} ] |}
              ["core"] eq_refl)
    as (layers & layers' & Hl & Hn & _ & Hp).
  rewrite Hp. injection Hl as <-. vm_compute in Hn. injection Hn as <-. reflexivity.
Defined.

End LayerUpdaterProperties.

(** * Properties of the log archive *)

Module LambdaCoreProperties.

Import LambdaCore.

Lemma getter_step {A} (m : M A) d config :
  computes m d → cache_ok config →
  ∃ config', m config = (d config, config') ∧ cache_ok config'
             ∧ sources config' = sources config.
Proof.
  intros Hm Hok. destruct (Hm config Hok) as (Hr & Hok' & Hs).
  destruct (m config) as [r config']. simpl in *. subst r. eauto.
Qed.

Lemma archive_mode_not_invalid_state config :
  resolved_log_archive_mode config ≠ Raise InvalidState.
Proof.
  unfold resolved_log_archive_mode. rewrite val_post_process.
  destruct (first_hit _) as [v|]; [|discriminate].
  unfold post_process.
  change (_validations !! "LOG_ARCHIVE_MODE") with (Some ["s3"; "stdout"]).
  cbn [orb].
  destruct (bool_decide (Str.lower v ∈ ["s3"; "stdout"])); discriminate.
Qed.

(** X18. On a reachable configuration: when the archive mode is stdout,
    [archive_log_file] makes no call and raises nothing, whatever the other
    settings; when it is s3 and [self.s3] is assigned, it asks S3 to put the
    data under the given key into the log bucket with the KMS key of
    LOG_KMS_KEY_ID, and raises the missing-configuration error when no mapping
    holds that key; in no case does it raise the invalid-state error of
    [get_log_kms_key_id]. *)
Theorem archive_log_file_requests s3_initialised filepath data config :
  reachable config →
  (fst (get_log_archive_mode config) = Ok "stdout" →
   fst (archive_log_file s3_initialised filepath data config) = Done None) ∧
  (fst (get_log_archive_mode config) = Ok "s3" → s3_initialised = true →
   ∃ bucket,
     fst (get_log_bucket_name config) = Ok bucket ∧
     fst (archive_log_file s3_initialised filepath data config) =
     match first_hit (lookups config "LOG_KMS_KEY_ID") with
     | Some key =>
         Done (Some {| Bucket := bucket; Key := filepath; Body := data;
                       ServerSideEncryption := "aws:kms"; SSEKMSKeyId := key |})
     | None => Failed (ConfigError (MissingConfiguration "LOG_KMS_KEY_ID"))
     end) ∧
  fst (archive_log_file s3_initialised filepath data config)
  ≠ Failed (ConfigError InvalidState).
Proof.
  intros Hr. pose proof (reachable_cache_ok config Hr) as Hok.
  unfold archive_log_file.
  destruct (getter_step _ _ config get_log_archive_mode_computes Hok)
    as (c1 & -> & Hok1 & Hs1). cbn [fst].
  destruct (getter_step _ _ c1 get_log_archive_mode_computes Hok1)
    as (c1' & E1' & _ & _).
  rewrite (resolved_simple_sources_eq c1 config Hs1) in E1'. rewrite E1'.
  destruct (getter_step _ _ c1 get_log_bucket_name_computes Hok1)
    as (c2 & E2 & Hok2 & Hs2).
  rewrite (resolved_log_bucket_sources c1 config Hs1) in E2. rewrite E2.
  destruct (getter_step _ _ c2 get_log_kms_key_id_computes Hok2)
    as (c3 & E3 & _ & _).
  rewrite (resolved_log_kms_key_id_sources c2 config (eq_trans Hs2 Hs1)) in E3.
  rewrite E3.
  destruct (getter_step _ _ config get_log_bucket_name_computes Hok)
    as (c4 & E4 & _ & _). rewrite E4. cbn [fst].
  assert (Hb : ∃ bucket, resolved_log_bucket config = Ok bucket).
  { unfold resolved_log_bucket. rewrite val_post_process, first_hit_app.
    destruct (first_hit _); simpl; eauto. }
  destruct Hb as [bucket Hb]. rewrite Hb.
  unfold resolved_log_kms_key_id.
  rewrite val_post_process, first_hit_app.
  destruct (first_hit (lookups config "LOG_KMS_KEY_ID")) as [key|].
  - change (post_process "LOG_KMS_KEY_ID" false false key) with (Ok key).
    split; [|split].
    + intros ->. reflexivity.
    + intros -> ->. exists bucket. split; reflexivity.
    + destruct (resolved_log_archive_mode config) as [mode|e] eqn:Em; cbn [fst].
      * destruct (String.eqb mode "s3") eqn:Es.
        -- destruct (negb s3_initialised); cbn [fst negb]; discriminate.
        -- destruct (String.eqb mode "stdout"); discriminate.
      * intros [= ->]. revert Em. apply archive_mode_not_invalid_state.
  - split; [|split].
    + intros ->. reflexivity.
    + intros -> ->. exists bucket. split; reflexivity.
    + destruct (resolved_log_archive_mode config) as [mode|e] eqn:Em; cbn [fst].
      * destruct (String.eqb mode "s3") eqn:Es.
        -- destruct (negb s3_initialised); cbn [fst negb]; discriminate.
        -- destruct (String.eqb mode "stdout"); discriminate.
      * intros [= ->]. revert Em. apply archive_mode_not_invalid_state.
Qed.

Lemma archive_log_file_requests_witness :
  fst (archive_log_file false "logs/a.log" "text"
         (__init__ "test" ∅ None None)) = Done None.
Proof.
  apply (proj1 (archive_log_file_requests false "logs/a.log" "text"
                  (__init__ "test" ∅ None None) (reach_init _ _ _ _))).
  reflexivity.
Defined.

End LambdaCoreProperties.
